(** * duckie: the command searcher of [search_algorithm.py]

    A shallow embedding of [MicroLanguageModel] and [CommandSearcher]
    and the properties of tokenisation, spelling correction, candidate
    retrieval, scoring and top-k selection.

    Conventions of the embedding.
    - A Python [str] is a [string]; a character is read as the code point
      of the same number (0..255).
    - A Python [float] is a real number: literals are their decimal values
      and [+], [*], [/], [np.exp], [np.sqrt] are the exact operations of
      [R].  The attention weight of [forward] is given a second time with
      the values [inf] and [nan] of float64 ([float64], [np_exp]), for the
      scores on which [np.exp] leaves the real numbers.  The value
      returned by the fuzzy scorer is kept as the rational number it
      denotes.
    - A Python exception is a value of [exception]; code that can raise
      returns a [result].
    - Iterating over a Python [set] yields its elements in an order the
      language does not fix; the order is a parameter ([HashOrder]).
    - The third-party collaborators ([SpellChecker.correction],
      [fuzz.WRatio]) and the draws of [np.random.randn] are parameters. *)

From Stdlib Require Import Reals Lra Psatz QArith.
From Stdlib Require Import Strings.String Strings.Ascii.
From stdpp Require Import base option list sorting gmap sets strings.

Local Open Scope string_scope.

(** ** Exceptions *)

Inductive exception : Set :=
  | TypeError
  | ZeroDivisionError
  | IndexError
  | AttributeError.

Inductive result (A : Type) : Type :=
  | Ok (a : A)
  | Raise (e : exception).
Arguments Ok {A} a.
Arguments Raise {A} e.

Global Instance result_ret : MRet result := fun A a => Ok a.
Global Instance result_bind : MBind result := fun A B k m =>
  match m with
  | Ok a => k a
  | Raise e => Raise e
  end.

(** ** Python string methods *)

Module PyStr.

(** [str.isspace] on one character: the code points 9..13, 28..32,
    133 and 160. *)
Definition isspace (c : ascii) : bool :=
  let n := nat_of_ascii c in
  (((9 <=? n) && (n <=? 13)) || ((28 <=? n) && (n <=? 32))
   || (n =? 133) || (n =? 160))%nat.

(** [c in chars] *)
Fixpoint mem (c : ascii) (chars : string) : bool :=
  match chars with
  | EmptyString => false
  | String d chars' => if Ascii.eqb c d then true else mem c chars'
  end.

Fixpoint lstrip_by (p : ascii → bool) (s : string) : string :=
  match s with
  | EmptyString => EmptyString
  | String c s' => if p c then lstrip_by p s' else s
  end.

Definition rstrip_by (p : ascii → bool) (s : string) : string :=
  String.rev (lstrip_by p (String.rev s)).

Definition strip_by (p : ascii → bool) (s : string) : string :=
  rstrip_by p (lstrip_by p s).

(** [s.strip()] *)
Definition strip (s : string) : string := strip_by isspace s.

(** [s.strip(chars)] *)
Definition strip_chars (chars : string) (s : string) : string :=
  strip_by (fun c => mem c chars) s.

(** [s.split()]: the maximal runs of characters that are not
    whitespace.  [cur] is the run being read, reversed. *)
Fixpoint split_go (cur : string) (s : string) : list string :=
  match s with
  | EmptyString =>
      match cur with
      | EmptyString => []
      | _ => [String.rev cur]
      end
  | String c s' =>
      if isspace c then
        match cur with
        | EmptyString => split_go EmptyString s'
        | _ => String.rev cur :: split_go EmptyString s'
        end
      else split_go (String c cur) s'
  end.

Definition split (s : string) : list string := split_go EmptyString s.

(** [str.lower] on one character: [A-Z] and the capital letters
    192..222 other than 215 move up by 32. *)
Definition lower_char (c : ascii) : ascii :=
  let n := nat_of_ascii c in
  if (((65 <=? n) && (n <=? 90))
      || ((192 <=? n) && (n <=? 222) && negb (n =? 215)))%nat
  then ascii_of_nat (n + 32) else c.

Fixpoint lower (s : string) : string :=
  match s with
  | EmptyString => EmptyString
  | String c s' => String (lower_char c) (lower s')
  end.

End PyStr.

(** ** Iteration order of sets

    [list(s)] and [for x in s] enumerate a set without repetition, in an
    order that depends on hashing.  Every result below holds for each
    such order. *)

Record HashOrder : Type := {
  iter_str : gset string → list string;
  iter_idx : gset nat → list nat;
  iter_str_perm : ∀ X, iter_str X ≡ₚ elements X;
  iter_idx_perm : ∀ X, iter_idx X ≡ₚ elements X
}.

Definition elements_order : HashOrder := {|
  iter_str := elements;
  iter_idx := elements;
  iter_str_perm := fun X => Permutation_refl (elements X);
  iter_idx_perm := fun X => Permutation_refl (elements X)
|}.

(** ** Third-party collaborators

    [SpellChecker_default] is the word-frequency table a fresh
    [SpellChecker()] starts with, [SpellChecker_correction] is
    [SpellChecker.correction] as a function of the current table, and
    [fuzz_WRatio] is the scorer handed to [process.extractOne], a
    similarity between 0 and 100. *)

Record Collaborators : Type := {
  SpellChecker_default : gmap string nat;
  SpellChecker_correction : gmap string nat → string → option string;
  fuzz_WRatio : string → string → Q
}.

(** [spell_checker.word_frequency.load_words(words)] of pyspellchecker:
    the frequency counter is updated with the words, lower-cased, so
    every word has its count incremented; no entry is ever removed. *)
Definition load_words (words : list string) (word_frequency : gmap string nat)
  : gmap string nat :=
  foldl (fun d w => <[PyStr.lower w := S (default 0%nat (d !! PyStr.lower w))]> d)
        word_frequency words.

(** The words the spelling checker knows: the keys of its table. *)
Definition known_words (word_frequency : gmap string nat) : gset string :=
  dom word_frequency.

(** [process.extractOne(query, choices, scorer=fuzz.WRatio)]: the first
    choice of maximal score with its score and position, [None] when
    there is no choice. *)
Fixpoint extractOne_go (scorer : string → Q) (best : option (string * Q * nat))
    (i : nat) (choices : list string) : option (string * Q * nat) :=
  match choices with
  | [] => best
  | choice :: choices' =>
      let score := scorer choice in
      let best' :=
        match best with
        | None => Some (choice, score, i)
        | Some (_, best_score, _) =>
            if Qlt_le_dec best_score score then Some (choice, score, i) else best
        end in
      extractOne_go scorer best' (S i) choices'
  end.

Definition extractOne (scorer : string → string → Q) (query : string)
    (choices : list string) : option (string * Q * nat) :=
  extractOne_go (scorer query) None 0 choices.

(** ** numpy on real vectors *)

Local Open Scope R_scope.

Definition Rsum (l : list R) : R := foldr Rplus 0 l.
Arguments Rsum : simpl never.

Definition mean (l : list R) : R := Rsum l / INR (length l).

Definition dot (u v : list R) : R := Rsum (zip_with Rmult u v).

Definition norm (u : list R) : R := sqrt (Rsum (map (fun x => x * x) u)).

(** ** MicroLanguageModel *)

(** The arrays of the model: [embeddings] has [n_rows] rows of [n_cols]
    entries, [attention_weights] has [n_cols] entries and [classifier]
    has [n_cols] rows of 3 entries. *)
Record MicroLanguageModel : Type := {
  n_rows : nat;
  n_cols : nat;
  embeddings : nat → nat → R;
  attention_weights : nat → R;
  classifier : nat → nat → R
}.

(** The draws of [np.random.randn] in one construction of the model. *)
Record Randn : Type := {
  randn_embeddings : nat → nat → R;
  randn_attention : nat → R;
  randn_classifier : nat → nat → R
}.

(** [MicroLanguageModel.__init__] *)
Definition MicroLanguageModel_init (rnd : Randn) (vocab_size embed_size : nat)
  : MicroLanguageModel := {|
  n_rows := vocab_size;
  n_cols := embed_size;
  embeddings := fun i j => randn_embeddings rnd i j * 0.01;
  attention_weights := fun j => randn_attention rnd j * 0.01;
  classifier := fun j k => randn_classifier rnd j k * 0.01
|}.

(** [idx % len(self.embeddings)] *)
Definition row_of (m : MicroLanguageModel) (idx : nat) : result nat :=
  match n_rows m with
  | O => Raise ZeroDivisionError
  | S _ => Ok (idx mod n_rows m)%nat
  end.

(** [np.mean([self.embeddings[r] for r in rows], axis=0)], entry [j]. *)
Definition mean_rows (m : MicroLanguageModel) (rows : list nat) (j : nat) : R :=
  mean (map (fun r => embeddings m r j) rows).

Definition sigmoid (x : R) : R := 1 / (1 + exp (- x)).

(** [np.exp(s) / np.sum(np.exp(s))] for the scalar [s]: the sum ranges
    over the single value [np.exp(s)]. *)
Definition softmax_scalar (s : R) : R := exp s / Rsum [exp s].

(** [MicroLanguageModel.forward] *)
Definition forward (m : MicroLanguageModel) (word_indices : list nat)
  : result (list R) :=
  match word_indices with
  | [] => Ok [0.33; 0.33; 0.33]
  | _ =>
      rows ← mapM (row_of m) word_indices;
      let embedded := mean_rows m rows in
      let attention_scores :=
        Rsum (map (fun j => embedded j * attention_weights m j) (seq 0 (n_cols m))) in
      let attention_weights := softmax_scalar attention_scores in
      let features := fun k =>
        Rsum (map (fun j => embedded j * attention_weights * classifier m j k)
                  (seq 0 (n_cols m))) in
      Ok (map (fun k => sigmoid (features k)) [0; 1; 2]%nat)
  end.

(** ** The attention weight in float64

    [forward] above reads every float as the real number it stands for.
    The attention weight [np.exp(s) / np.sum(np.exp(s))] is the one place
    of [forward] where float64 leaves the real numbers before the
    sigmoid: [np.exp] overflows to [inf] and underflows to [0.0], and
    the quotient of two infinities or of two zeros is [nan].  The
    definitions below keep these values; a finite value is still read as
    the real number it stands for. *)
Inductive float64 : Type :=
  | Finite (x : R)
  | Inf
  | NaN.

(** [np.exp(s)] on a float64 [s]: [inf] above the logarithm of the
    largest double, [0.0] from the logarithm of half the smallest one
    downwards. *)
Definition np_exp (s : R) : float64 :=
  if Rlt_dec 709.782712893384 s then Inf
  else if Rle_dec s (-745.1332191019412) then Finite 0
  else Finite (exp s).

(** [a / b] for operands that are not negative, as the values of
    [np.exp] are. *)
Definition np_divide (a b : float64) : float64 :=
  match a, b with
  | NaN, _ | _, NaN => NaN
  | Inf, Inf => NaN
  | Inf, Finite _ => Inf
  | Finite _, Inf => Finite 0
  | Finite x, Finite y =>
      if Req_dec_T y 0 then (if Req_dec_T x 0 then NaN else Inf)
      else Finite (x / y)
  end.

(** [np.exp(s) / np.sum(np.exp(s))] for the scalar [s] in float64: the
    sum of the single value [np.exp(s)] is that value. *)
Definition np_softmax_scalar (s : R) : float64 :=
  np_divide (np_exp s) (np_exp s).

(** [np.dot(embedded, self.attention_weights)] for the rows a non-empty
    id list addresses. *)
Definition attention_scores (m : MicroLanguageModel) (word_indices : list nat) : R :=
  let rows := map (fun idx => (idx mod n_rows m)%nat) word_indices in
  Rsum (map (fun j => mean_rows m rows j * attention_weights m j) (seq 0 (n_cols m))).

(** [MicroLanguageModel.forward] with the attention weight in float64.
    The weight multiplies every entry of [embedded]: when it is [nan]
    so are the features and the outputs (the score of a model without
    columns is 0, so that a weight that is not finite comes with at
    least one column). *)
Definition forward_float64 (m : MicroLanguageModel) (word_indices : list nat)
  : result (list float64) :=
  match word_indices with
  | [] => Ok [Finite 0.33; Finite 0.33; Finite 0.33]
  | _ =>
      rows ← mapM (row_of m) word_indices;
      let embedded := mean_rows m rows in
      let attention_scores :=
        Rsum (map (fun j => embedded j * attention_weights m j) (seq 0 (n_cols m))) in
      match np_softmax_scalar attention_scores with
      | Finite attention_weights =>
          let features := fun k =>
            Rsum (map (fun j => embedded j * attention_weights * classifier m j k)
                      (seq 0 (n_cols m))) in
          Ok (map (fun k => Finite (sigmoid (features k))) [0; 1; 2]%nat)
      | _ => Ok [NaN; NaN; NaN]
      end
  end.

(** ** heapq and sorted on [(-score, idx)] pairs *)

Definition item : Type := (R * nat)%type.

(** [a < b] on tuples: the first components decide unless they are
    equal. *)
Definition item_lt (a b : item) : bool :=
  if Req_dec_T a.1 b.1 then bool_decide (a.2 < b.2)%nat
  else if Rlt_dec a.1 b.1 then true else false.

(** [heapq._siftdown(heap, 0, pos)] with [newitem] taken out of
    position [pos].  [parentpos < pos], so [pos] iterations are enough
    and [fuel] is never what stops the loop when [pos ≤ fuel]. *)
Fixpoint _siftdown (fuel : nat) (heap : list item) (newitem : item) (pos : nat)
  : list item :=
  match fuel with
  | O => <[pos := newitem]> heap
  | S fuel' =>
      if decide (0 < pos)%nat then
        let parentpos := ((pos - 1) / 2)%nat in
        match heap !! parentpos with
        | Some parent =>
            if item_lt newitem parent
            then _siftdown fuel' (<[pos := parent]> heap) newitem parentpos
            else <[pos := newitem]> heap
        | None => <[pos := newitem]> heap
        end
      else <[pos := newitem]> heap
  end.

(** [heapq.heappush] *)
Definition heappush (heap : list item) (x : item) : list item :=
  _siftdown (length heap) (heap ++ [x]) x (length heap).

(** [sorted(l, key=lambda x: x[0])]: the stable sort by first component. *)
Fixpoint insert_by_key (x : item) (l : list item) : list item :=
  match l with
  | [] => [x]
  | y :: l' =>
      if Rle_dec x.1 y.1 then x :: y :: l' else y :: insert_by_key x l'
  end.

Definition sorted_by_key (l : list item) : list item :=
  foldr insert_by_key [] l.

(** ** CommandSearcher *)

(** A row of the [commands] table as the dict [search] hands back.
    Every row has the four keys, so the defaults of [cmd.get(key, '')]
    are never used. *)
Record Command : Type := {
  id : Z;
  intent : string;
  command : string;
  description : string
}.

Record CommandSearcher : Type := {
  word_index : gmap string (gset nat);
  command_keywords : list (gset string);
  spell_checker : gmap string nat;
  all_words : list string;
  word_to_idx : gmap string nat;
  lm : option MicroLanguageModel
}.

Section Searcher.

Context (ho : HashOrder) (collab : Collaborators).

(** [CommandSearcher.__init__] *)
Definition CommandSearcher_init : CommandSearcher := {|
  word_index := ∅;
  command_keywords := [];
  spell_checker := SpellChecker_default collab;
  all_words := [];
  word_to_idx := ∅;
  lm := None
|}.

Definition punctuation : string := ".,!?()[]{}"%string.

(** [CommandSearcher._tokenize] *)
Definition _tokenize (text : string) : list string :=
  match text with
  | EmptyString => []
  | _ =>
      iter_str ho (list_to_set
        (map (fun word => PyStr.lower (PyStr.strip_chars punctuation word))
             (filter (fun word =>
                        (2 < String.length (PyStr.strip_chars punctuation word))%nat)
                     (PyStr.split text))))
  end.

(** The f-string [f"{intent} {command} {description}"]. *)
Definition search_text (cmd : Command) : string :=
  (intent cmd ++ " " ++ command cmd ++ " " ++ description cmd)%string.

(** The first loop of [build_index]. *)
Definition vocabulary (commands : list Command) : gset string :=
  foldl (fun vocab cmd => vocab ∪ list_to_set (_tokenize (search_text cmd)))
        ∅ commands.

(** [{word: idx for idx, word in enumerate(all_words)}] *)
Definition enumerate_to_idx (words : list string) : gmap string nat :=
  foldl (fun d '(idx, word) => <[word := idx]> d) ∅ (imap pair words).

(** [self.word_index[word].add(idx)] on a [defaultdict(set)]. *)
Definition index_add (idx : nat) (wi : gmap string (gset nat)) (word : string)
  : gmap string (gset nat) :=
  <[word := default ∅ (wi !! word) ∪ {[idx]}]> wi.

(** The second loop of [build_index]. *)
Definition index_commands (commands : list Command)
  : gmap string (gset nat) * list (gset string) :=
  foldl (fun '(wi, ck) '(idx, cmd) =>
           let words := _tokenize (search_text cmd) in
           (foldl (index_add idx) wi words, (ck ++ [list_to_set words])%list))
        (∅, []) (imap pair commands).

(** [CommandSearcher.build_index] *)
Definition build_index (rnd : Randn) (commands : list Command)
    (self : CommandSearcher) : CommandSearcher :=
  let vocab := vocabulary commands in
  let all_words := iter_str ho vocab in
  let indexed := index_commands commands in
  {| word_index := indexed.1;
     command_keywords := indexed.2;
     spell_checker := load_words all_words (spell_checker self);
     all_words := all_words;
     word_to_idx := enumerate_to_idx all_words;
     lm := Some (MicroLanguageModel_init rnd (length all_words) 16) |}.

(** The last two lines of [_correct_spelling].  Unpacking the [None]
    that [extractOne] returns for an empty list raises [TypeError]. *)
Definition fuzzy_match (self : CommandSearcher) (word : string) : result string :=
  match extractOne (fuzz_WRatio collab) word (all_words self) with
  | Some (best_match, score, _) =>
      Ok (if Qlt_le_dec 80 score then best_match else word)
  | None => Raise TypeError
  end.

(** [CommandSearcher._correct_spelling] *)
Definition _correct_spelling (self : CommandSearcher) (word : string)
  : result string :=
  if decide (word ∈ dom (word_to_idx self)) then Ok word
  else
    match SpellChecker_correction collab (spell_checker self) word with
    | Some correction =>
        if decide (correction ≠ ""%string ∧ correction ∈ dom (word_to_idx self))
        then Ok correction
        else fuzzy_match self word
    | None => fuzzy_match self word
    end.

(** [CommandSearcher._get_word_indices] *)
Definition _get_word_indices (self : CommandSearcher) (words : list string)
  : list nat :=
  omap (fun word => word_to_idx self !! word) words.

(** [CommandSearcher._analyze_with_lm] *)
Definition _analyze_with_lm (self : CommandSearcher) (query_words : list string)
    (cmd_words : gset string) : result R :=
  let query_indices := _get_word_indices self query_words in
  let cmd_indices := _get_word_indices self (iter_str ho cmd_words) in
  match lm self with
  | None => Raise AttributeError
  | Some m =>
      query_features ← forward m query_indices;
      cmd_features ← forward m cmd_indices;
      let similarity :=
        dot query_features cmd_features
        / (norm query_features * norm cmd_features + 1e-6) in
      Ok ((similarity + 1) / 2)
  end.

(** The features of one candidate. *)
Definition matched_words (query_words : list string) (cmd_words : gset string)
  : gset string :=
  list_to_set query_words ∩ cmd_words.

Definition coverage (query_words : list string) (cmd_words : gset string) : R :=
  INR (size (matched_words query_words cmd_words)) / INR (length query_words).

Definition density (query_words : list string) (cmd_words : gset string) : R :=
  if decide (cmd_words = ∅) then 0
  else INR (size (matched_words query_words cmd_words)) / INR (size cmd_words).

(** The body of the scoring loop of [search], up to the threshold:
    the combined score of candidate [idx]. *)
Definition candidate_score (self : CommandSearcher) (query_words : list string)
    (idx : nat) : result R :=
  match command_keywords self !! idx with
  | None => Raise IndexError
  | Some cmd_words =>
      lm_score ← _analyze_with_lm self query_words cmd_words;
      Ok (lm_score * 0.6 + coverage query_words cmd_words * 0.3
          + density query_words cmd_words * 0.1)
  end.

(** The body of the scoring loop of [search]: [scored_results] after
    candidate [idx]. *)
Definition score_candidate (self : CommandSearcher) (query_words : list string)
    (scored_results : list item) (idx : nat) : result (list item) :=
  score ← candidate_score self query_words idx;
  Ok (if Rlt_dec 0.3 score
      then heappush scored_results (- score, idx)
      else scored_results).

Fixpoint score_candidates (self : CommandSearcher) (query_words : list string)
    (scored_results : list item) (candidates : list nat) : result (list item) :=
  match candidates with
  | [] => Ok scored_results
  | idx :: candidates' =>
      scored_results' ← score_candidate self query_words scored_results idx;
      score_candidates self query_words scored_results' candidates'
  end.

(** The corrected query tokens: the first loop of [search]. *)
Definition query_words_of (self : CommandSearcher) (query : string)
  : result (list string) :=
  corrected ← mapM (_correct_spelling self) (_tokenize query);
  Ok (filter (fun w => w ≠ ""%string) corrected).

(** The union of the index entries of the query words. *)
Definition candidate_indices_of (self : CommandSearcher) (query_words : list string)
  : gset nat :=
  foldl (fun acc word => acc ∪ default ∅ (word_index self !! word)) ∅ query_words.

(** [commands[idx]] *)
Definition getitem (commands : list Command) (idx : nat) : result Command :=
  match commands !! idx with
  | Some cmd => Ok cmd
  | None => Raise IndexError
  end.

(** [CommandSearcher.search] *)
Definition search (self : CommandSearcher) (query : string)
    (commands : list Command) : result (list (Command * R)) :=
  if decide (PyStr.strip query = ""%string) then Ok []
  else
    query_words ← query_words_of self query;
    match query_words with
    | [] => Ok []
    | _ =>
        let candidate_indices := candidate_indices_of self query_words in
        scored_results ←
          score_candidates self query_words [] (iter_idx ho candidate_indices);
        mapM (fun '(score, idx) => cmd ← getitem commands idx; Ok (cmd, - score))
             (take 3 (sorted_by_key scored_results))
    end.

End Searcher.

(** ** Auxiliary definitions *)

(** The tokens of a text before deduplication: the argument of [set(...)]
    in [_tokenize]. *)
Definition raw_tokens (text : string) : list string :=
  map (fun word => PyStr.lower (PyStr.strip_chars punctuation word))
      (filter (fun word => (2 < String.length (PyStr.strip_chars punctuation word))%nat)
              (PyStr.split text)).

(** [set(words)] for one record: its keyword set. *)
Definition keyword_set (ho : HashOrder) (cmd : Command) : gset string :=
  list_to_set (_tokenize ho (search_text cmd)).

(** A string made of whitespace only. *)
Fixpoint all_space (s : string) : bool :=
  match s with
  | EmptyString => true
  | String c s' => PyStr.isspace c && all_space s'
  end.

(** The order by first component that [sorted] establishes. *)
Definition key_le (a b : item) : Prop := a.1 <= b.1.

(** The item and the pair the final comprehension makes of it. *)
Definition returned (commands : list Command) (x : item) (r : Command * R) : Prop :=
  commands !! x.2 = Some r.1 ∧ r.2 = - x.1.

(** The forward pass as the attention-free reading has it: the sigmoid
    of the mean of the addressed embedding rows multiplied through the
    classifier matrix. *)
Definition forward_mean_classifier (m : MicroLanguageModel) (word_indices : list nat)
  : result (list R) :=
  rows ← mapM (row_of m) word_indices;
  Ok (map (fun k =>
             sigmoid (Rsum (map (fun j => mean_rows m rows j * classifier m j k)
                                (seq 0 (n_cols m)))))
          [0; 1; 2]%nat).

(** The coverage in the words of the specification: the number of
    distinct query tokens present in the keyword set over the number of
    distinct query tokens. *)
Definition coverage_distinct (query_words : list string) (cmd_words : gset string) : R :=
  INR (size (list_to_set query_words ∩ cmd_words))
  / INR (size (list_to_set query_words : gset string)).

(** ** Concrete inputs *)

(** Draws that are all zero. *)
Definition zero_randn : Randn := {|
  randn_embeddings := fun _ _ => 0;
  randn_attention := fun _ => 0;
  randn_classifier := fun _ _ => 0
|}.

(** A model of one row whose parameters are all 10, but for a classifier
    of zeros: the attention score of its row is 16 * 10 * 10. *)
Definition steep_model : MicroLanguageModel := {|
  n_rows := 1;
  n_cols := 16;
  embeddings := fun _ _ => 10;
  attention_weights := fun _ => 10;
  classifier := fun _ _ => 0
|}.

(** Collaborators that know no word and correct nothing. *)
Definition silent_collaborators : Collaborators := {|
  SpellChecker_default := ∅;
  SpellChecker_correction := fun _ _ => None;
  fuzz_WRatio := fun _ _ => 0%Q
|}.

(** Collaborators whose dictionary corrects ["netwrk"] to ["network"]. *)
Definition typo_collaborators : Collaborators := {|
  SpellChecker_default := ∅;
  SpellChecker_correction := fun _ word =>
    if decide (word = "netwrk"%string) then Some "network"%string else None;
  fuzz_WRatio := fun _ _ => 0%Q
|}.

(** The rows [TinyDuckieBot._initialize_db] inserts into an empty
    table. *)
Definition ssh_key_command : Command :=
  {| id := 1; intent := "ssh connect with private key";
     command := "ssh username@host -i id_rsa";
     description := "Connect SSH using private key authentication" |}%string.

Definition simple_ssh_command : Command :=
  {| id := 2; intent := "simple ssh command";
     command := "ssh username@host";
     description := "Basic SSH connection command" |}%string.

Definition network_command : Command :=
  {| id := 3; intent := "scan network ports";
     command := "nmap -sV -T4 192.168.1.0/24";
     description := "Scan network for open ports and services" |}%string.

Definition default_commands : list Command :=
  [ssh_key_command; simple_ssh_command; network_command].

(** Two records that differ in a two-letter command only. *)
Definition twin_commands : list Command := [
  {| id := 1; intent := "list files"; command := "ls"; description := "" |};
  {| id := 2; intent := "list files"; command := "ll"; description := "" |}
]%string.

(** The searcher after start-up on the default catalog. *)
Definition default_searcher : CommandSearcher :=
  build_index elements_order zero_randn default_commands
    (CommandSearcher_init silent_collaborators).

(** ** TinyDuckieBot

    The [commands] table of [tiny_duckie_bot.py] is a list of rows in
    rowid order, the order of [SELECT * FROM commands], together with
    the largest id handed out so far ([AUTOINCREMENT]).  A statement
    that raises is [None]. *)

Record Database : Type := {
  table : list Command;
  sequence : Z
}.

(** The ids of [INTEGER PRIMARY KEY] are signed 64-bit integers. *)
Definition min_rowid : Z := (-9223372036854775808)%Z.
Definition max_rowid : Z := 9223372036854775807%Z.

(** [INSERT INTO commands (intent, command, description) VALUES (?, ?, ?)]:
    it raises [sqlite3.IntegrityError] when a row has the command text
    already ([UNIQUE]), and [sqlite3.OperationalError] when the largest
    id was handed out before ([AUTOINCREMENT] never goes back).  The new
    id is the successor of the last one handed out, no row of the table
    having a larger one ([well_formed] below). *)
Definition insert_row (db : Database) (intent_ command_ description_ : string)
  : option Database :=
  if decide (command_ ∈ map command (table db)) then None
  else if decide (max_rowid ≤ sequence db)%Z then None
  else Some {|
    table := (table db ++ [{| id := (sequence db + 1)%Z; intent := intent_;
                              command := command_;
                              description := description_ |}])%list;
    sequence := (sequence db + 1)%Z
  |}.

(** [DELETE FROM commands WHERE id = ?]: the table left and
    [cursor.rowcount]; binding an id that is no signed 64-bit integer
    raises [OverflowError]. *)
Definition delete_row (db : Database) (command_id : Z) : option (Database * nat) :=
  if decide (min_rowid ≤ command_id ∧ command_id ≤ max_rowid)%Z then
    let kept := filter (fun row => id row ≠ command_id) (table db) in
    Some ({| table := kept; sequence := sequence db |},
          (length (table db) - length kept)%nat)
  else None.

(** The two statements that change the table. *)
Inductive statement : Type :=
  | INSERT (intent_ command_ description_ : string)
  | DELETE (command_id : Z).

Definition execute (db : Database) (st : statement) : option Database :=
  match st with
  | INSERT intent_ command_ description_ =>
      insert_row db intent_ command_ description_
  | DELETE command_id =>
      match delete_row db command_id with
      | Some (db', _) => Some db'
      | None => None
      end
  end.

(** The table after a series of statements: a statement that raises
    leaves the table as it was. *)
Definition run_statements (db : Database) (statements : list statement) : Database :=
  foldl (fun db st => match execute db st with Some db' => db' | None => db end)
        db statements.

(** A database file that does not exist yet: [CREATE TABLE IF NOT
    EXISTS] makes the empty table. *)
Definition new_database : Database := {| table := []; sequence := 0 |}.

Record TinyDuckieBot : Type := {
  db_file : Database;
  searcher : CommandSearcher
}.

Module Bot.
Section Bot.

Context (ho : HashOrder) (collab : Collaborators).

(** [TinyDuckieBot._load_commands]; [rnd] holds the draws of the model
    this rebuild constructs. *)
Definition _load_commands (rnd : Randn) (self : TinyDuckieBot) : TinyDuckieBot :=
  {| db_file := db_file self;
     searcher := build_index ho rnd (table (db_file self)) (searcher self) |}.

(** [TinyDuckieBot.search] *)
Definition search (self : TinyDuckieBot) (query : string)
  : result (list (Command * R)) :=
  search ho collab (searcher self) query (table (db_file self)).

End Bot.
End Bot.

(** [s.split(sep)] for a separator of one character: the pieces between
    the separators, at least one. *)
Fixpoint split_sep (sep : ascii) (s : string) : list string :=
  match s with
  | EmptyString => [EmptyString]
  | String c s' =>
      if Ascii.eqb c sep then EmptyString :: split_sep sep s'
      else
        match split_sep sep s' with
        | piece :: pieces => String c piece :: pieces
        | [] => [String c EmptyString]
        end
  end.

(** [sep.join(pieces)] *)
Fixpoint join (sep : string) (pieces : list string) : string :=
  match pieces with
  | [] => EmptyString
  | [piece] => piece
  | piece :: pieces' => (piece ++ sep ++ join sep pieces')%string
  end.

Definition newline : ascii := "010"%char.

(** The body of the loop of [_format_command]: line [i] as it is
    appended; [line.lstrip()] removes leading whitespace. *)
Definition format_line (i : nat) (line : string) : string :=
  match i with
  | O => line
  | S _ => ("    " ++ PyStr.lstrip_by PyStr.isspace line)%string
  end.

(** [TinyDuckieBot._format_command] *)
Definition _format_command (command_ : string) : string :=
  let lines := split_sep newline command_ in
  if decide (length lines = 1%nat) then command_
  else join (String newline EmptyString) (imap format_line lines).

(** The index of the bot's searcher was built from the rows now in the
    table. *)
Definition in_sync (ho : HashOrder) (self : TinyDuckieBot) : Prop :=
  ∃ rnd self0,
    searcher self = build_index ho rnd (table (db_file self)) self0.

(** What [PRIMARY KEY AUTOINCREMENT] and [UNIQUE] keep true of the
    table. *)
Definition well_formed (db : Database) : Prop :=
  NoDup (map id (table db))
  ∧ NoDup (map command (table db))
  ∧ Forall (fun row => (id row <= sequence db)%Z) (table db).

(** A string without whitespace. *)
Definition no_space (s : string) : Prop :=
  ∀ c, PyStr.mem c s = true → PyStr.isspace c = false.

(** The bot after start-up on a new database file. *)
Definition default_bot : TinyDuckieBot := {|
  db_file := {| table := default_commands; sequence := 3 |};
  searcher := default_searcher
|}.

(** The bot after every row of the default catalog was deleted. *)
Definition emptied_bot : TinyDuckieBot := {|
  db_file := {| table := []; sequence := 3 |};
  searcher := build_index elements_order zero_randn [] default_searcher
|}.

(** * Properties *)

(** [x ∉ l] for a list of literals. *)
Ltac not_in_list :=
  let H := fresh in
  intros H;
  repeat (apply elem_of_cons in H as [H|H]; [discriminate H|]);
  by apply elem_of_nil in H.

(** ** Strings *)

Example split_ex : PyStr.split "  ssh   Key,  a " = ["ssh"; "Key,"; "a"].
Proof. reflexivity. Qed.
Example strip_ex : PyStr.strip_chars ".,!?()[]{}" "(Key,)" = "Key".
Proof. reflexivity. Qed.
Example lower_ex : PyStr.lower "SSH Key" = "ssh key".
Proof. reflexivity. Qed.

Lemma lstrip_all_space s : all_space s = true → PyStr.lstrip_by PyStr.isspace s = ""%string.
Proof.
  induction s as [|c s IH]; simpl; [done|].
  intros [Hc Hs]%andb_prop. rewrite Hc. auto.
Qed.

Lemma strip_all_space s : all_space s = true → PyStr.strip s = ""%string.
Proof.
  intros H. unfold PyStr.strip, PyStr.strip_by.
  rewrite (lstrip_all_space _ H). reflexivity.
Qed.

Lemma lower_char_idem c : PyStr.lower_char (PyStr.lower_char c) = PyStr.lower_char c.
Proof.
  destruct c as [[] [] [] [] [] [] [] []]; reflexivity.
Qed.

Lemma lower_idem s : PyStr.lower (PyStr.lower s) = PyStr.lower s.
Proof.
  induction s as [|c s IH]; simpl; [done|].
  by rewrite lower_char_idem, IH.
Qed.

(** ** The discrete part of the model runs *)

Example tokenize_ex :
  _tokenize elements_order "SSH (key), ok  ssh!" = ["key"; "ssh"]%string.
Proof. vm_compute. reflexivity. Qed.

Example extractOne_first_max :
  extractOne (fun _ c => inject_Z (Z.of_nat (String.length c))) "x"
             ["ab"; "abcd"; "wxyz"]%string
  = Some ("abcd"%string, inject_Z 4, 1%nat).
Proof. vm_compute. reflexivity. Qed.

Example extractOne_no_choice scorer query : extractOne scorer query [] = None.
Proof. reflexivity. Qed.

Example all_words_default :
  all_words default_searcher
  = ["open"; "with"; "key"; "ssh"; "scan"; "services"; "simple"; "command";
     "connection"; "connect"; "-sv"; "-t4"; "username@host"; "using"; "id_rsa";
     "192.168.1.0/24"; "authentication"; "and"; "nmap"; "network"; "for";
     "basic"; "ports"; "private"]%string.
Proof. vm_compute. reflexivity. Qed.

Example query_words_ssh_key :
  query_words_of elements_order silent_collaborators default_searcher "ssh key"
  = Ok ["key"; "ssh"]%string.
Proof. vm_compute. reflexivity. Qed.

Example word_indices_ssh_key :
  _get_word_indices default_searcher ["key"; "ssh"]%string = [2; 3]%nat.
Proof. vm_compute. reflexivity. Qed.

Example candidates_ssh_key :
  elements (candidate_indices_of default_searcher ["key"; "ssh"]%string)
  = [1; 0]%nat.
Proof. vm_compute. reflexivity. Qed.

Example query_words_unknown :
  query_words_of elements_order silent_collaborators default_searcher "quack"
  = Ok ["quack"%string].
Proof. vm_compute. reflexivity. Qed.

Example search_unknown :
  search elements_order silent_collaborators default_searcher "quack"
         default_commands = Ok [].
Proof.
  unfold search. rewrite decide_False by done.
  rewrite query_words_unknown. reflexivity.
Qed.

(** ** Empty and whitespace-only queries *)

Section EmptyQuery.

Context (ho : HashOrder) (collab : Collaborators).

(** C8. A query made of whitespace only (the empty query and
    ["   "] among them) makes [search] return the empty list, whatever
    the state of the searcher and the catalog: no exception is raised. *)
Theorem search_whitespace_only (self : CommandSearcher) (query : string)
    (commands : list Command) :
  all_space query = true → search ho collab self query commands = Ok [].
Proof.
  intros Hq. unfold search.
  rewrite (strip_all_space _ Hq). by rewrite decide_True.
Qed.

End EmptyQuery.

Example search_empty_string ho collab self commands :
  search ho collab self "" commands = Ok [].
Proof. reflexivity. Qed.

Example search_three_spaces ho collab self commands :
  search ho collab self "   " commands = Ok [].
Proof. reflexivity. Qed.

(** ** The projection model *)

Lemma Rsum_nil : Rsum [] = 0.
Proof. reflexivity. Qed.

Lemma Rsum_cons x l : Rsum (x :: l) = x + Rsum l.
Proof. reflexivity. Qed.

Lemma softmax_scalar_one s : softmax_scalar s = 1.
Proof.
  unfold softmax_scalar. rewrite Rsum_cons, Rsum_nil.
  pose proof (exp_pos s). field. lra.
Qed.

Lemma Rsum_ext {A} (f g : A → R) (l : list A) :
  (∀ a, f a = g a) → Rsum (map f l) = Rsum (map g l).
Proof.
  intros Hfg. induction l as [|a l IH]; simpl; [done|].
  by rewrite !Rsum_cons, Hfg, IH.
Qed.

(** C9 (as the code has it). On the empty id list the forward pass
    returns the constant vector [0.33, 0.33, 0.33], whatever the
    parameters: three equal entries, each 33/100 and not one third, so
    that they sum to 0.99 and not to 1. *)
Theorem forward_empty (m : MicroLanguageModel) :
  ∃ v, forward m [] = Ok v
       ∧ v = [0.33; 0.33; 0.33]
       ∧ Forall (fun x => x = 33 / 100 ∧ x ≠ 1 / 3) v
       ∧ Rsum v = 0.99.
Proof.
  exists [0.33; 0.33; 0.33]. split_and!; [reflexivity|reflexivity| |].
  - repeat constructor; lra.
  - rewrite !Rsum_cons, Rsum_nil. lra.
Qed.

(** C9 as stated fails: the output on the empty id list is not
    [1/3, 1/3, 1/3]. *)
Lemma forward_empty_not_one_third :
  ¬ (∀ m : MicroLanguageModel, forward m [] = Ok [1 / 3; 1 / 3; 1 / 3]).
Proof.
  intros H. specialize (H (MicroLanguageModel_init zero_randn 1 16)).
  cbn [forward] in H. injection H as H _ _. lra.
Qed.

Lemma mapM_row_of m ids :
  mapM (row_of m) ids
  = match n_rows m, ids with
    | O, _ :: _ => Raise ZeroDivisionError
    | _, _ => Ok (map (fun idx => idx mod n_rows m)%nat ids)
    end.
Proof.
  destruct (n_rows m) as [|n] eqn:Hn.
  - destruct ids; [done|]. simpl. unfold row_of. by rewrite Hn.
  - assert (Hrow : ∀ idx, row_of m idx = Ok (idx mod S n)%nat)
      by (intros; unfold row_of; by rewrite Hn).
    induction ids as [|idx ids IH]; [done|].
    simpl. rewrite Hrow. cbn [mbind result_bind]. by rewrite IH.
Qed.

Lemma forward_real_attention_free (m : MicroLanguageModel) (word_indices : list nat) :
  word_indices ≠ [] →
  forward m word_indices = forward_mean_classifier m word_indices.
Proof.
  intros Hne.
  destruct word_indices as [|idx ids]; [done|].
  unfold forward, forward_mean_classifier.
  destruct (mapM (row_of m) (idx :: ids)) as [rows|e]; [|done].
  cbn [mbind result_bind]. f_equal.
  apply map_ext. intros k. f_equal. apply Rsum_ext. intros j.
  rewrite softmax_scalar_one. ring.
Qed.

Lemma np_exp_finite s :
  -745.1332191019412 < s <= 709.782712893384 → np_exp s = Finite (exp s).
Proof.
  intros [Hlo Hhi]. unfold np_exp.
  destruct (Rlt_dec _ _) as [H|_]; [lra|].
  destruct (Rle_dec _ _) as [H|_]; [lra|]. done.
Qed.

Lemma np_exp_overflow s : 709.782712893384 < s → np_exp s = Inf.
Proof. intros H. unfold np_exp. by destruct (Rlt_dec _ _). Qed.

Lemma np_exp_underflow s : s <= -745.1332191019412 → np_exp s = Finite 0.
Proof.
  intros H. unfold np_exp.
  destruct (Rlt_dec _ _) as [H'|_]; [lra|].
  by destruct (Rle_dec _ _).
Qed.

Lemma np_softmax_scalar_finite s :
  -745.1332191019412 < s <= 709.782712893384 → np_softmax_scalar s = Finite 1.
Proof.
  intros Hs. unfold np_softmax_scalar. rewrite (np_exp_finite s Hs).
  pose proof (exp_pos s). unfold np_divide.
  destruct (Req_dec_T _ _) as [H0|_]; [lra|].
  f_equal. field. lra.
Qed.

(** Outside the range the weight is not a number: [inf / inf] above,
    [0.0 / 0.0] below. *)
Lemma np_softmax_scalar_nan s :
  s <= -745.1332191019412 ∨ 709.782712893384 < s → np_softmax_scalar s = NaN.
Proof.
  intros [Hs|Hs]; unfold np_softmax_scalar.
  - rewrite (np_exp_underflow s Hs). unfold np_divide.
    by destruct (Req_dec_T _ _).
  - by rewrite (np_exp_overflow s Hs).
Qed.

(** Where [np.exp] neither overflows nor underflows on the attention
    score, the real-number reading [forward] is what the float64 weight
    gives. *)
Lemma forward_float64_finite (m : MicroLanguageModel) (word_indices : list nat) :
  -745.1332191019412 < attention_scores m word_indices <= 709.782712893384 →
  forward_float64 m word_indices = (v ← forward m word_indices; Ok (map Finite v)).
Proof.
  intros Hs. destruct word_indices as [|idx ids]; [done|].
  unfold forward_float64, forward. rewrite mapM_row_of.
  destruct (n_rows m) as [|n] eqn:Hn; [done|].
  cbn [mbind result_bind].
  unfold attention_scores in Hs. rewrite Hn in Hs.
  rewrite (np_softmax_scalar_finite _ Hs), softmax_scalar_one. done.
Qed.

Lemma Rsum_const {A} (f : A → R) (x : R) (l : list A) :
  (∀ a, f a = x) → Rsum (map f l) = INR (length l) * x.
Proof.
  intros Hf. induction l as [|a l IH]; [cbn [map length]; rewrite Rsum_nil; simpl; ring|].
  cbn [map length]. rewrite Rsum_cons, IH, Hf, S_INR. ring.
Qed.

Lemma attention_scores_steep : attention_scores steep_model [0%nat] = 1600.
Proof.
  unfold attention_scores.
  rewrite (Rsum_const _ 100).
  - rewrite length_seq. simpl. lra.
  - intros j. unfold mean_rows, mean. cbn [map length steep_model embeddings
      attention_weights]. rewrite Rsum_cons, Rsum_nil. simpl. lra.
Qed.

Lemma Rsum_abs_le (l : list R) (c : R) :
  Forall (fun x => Rabs x <= c) l → Rabs (Rsum l) <= INR (length l) * c.
Proof.
  induction 1 as [|x l Hx _ IH].
  - rewrite Rsum_nil, Rabs_R0. simpl. lra.
  - rewrite Rsum_cons. cbn [length]. rewrite S_INR.
    pose proof (Rabs_triang x (Rsum l)). lra.
Qed.

Lemma mean_abs_le (l : list R) (c : R) :
  0 <= c → Forall (fun x => Rabs x <= c) l → Rabs (mean l) <= c.
Proof.
  intros Hc Hl. unfold mean. destruct l as [|x l].
  - rewrite Rsum_nil. unfold Rdiv. rewrite Rmult_0_l, Rabs_R0. done.
  - pose proof (Rsum_abs_le _ _ Hl) as Hsum.
    assert (Hn : 0 < INR (length (x :: l))) by (apply lt_0_INR; simpl; lia).
    unfold Rdiv. rewrite Rabs_mult, (Rabs_pos_eq (/ _)).
    + apply Rmult_le_reg_r with (INR (length (x :: l))); [done|].
      rewrite Rmult_assoc, Rinv_l by lra. lra.
    + left. by apply Rinv_0_lt_compat.
Qed.

(** The parameters [__init__] draws are small: with draws within [-b, b]
    the attention score of a model of [embed_size] columns is within
    [embed_size * (b / 100)²], far inside the range of [np.exp] for the
    16 columns of the searcher's model and draws within [-100, 100]. *)
Lemma attention_scores_init (rnd : Randn) (vocab_size embed_size : nat)
    (word_indices : list nat) (b : R) :
  (∀ i j, Rabs (randn_embeddings rnd i j) <= b) →
  (∀ j, Rabs (randn_attention rnd j) <= b) →
  Rabs (attention_scores (MicroLanguageModel_init rnd vocab_size embed_size)
          word_indices)
  <= INR embed_size * (b * 0.01 * (b * 0.01)).
Proof.
  intros He Ha.
  assert (Hb : 0 <= b).
  { pose proof (Rabs_pos (randn_attention rnd 0)). specialize (Ha 0%nat). lra. }
  unfold attention_scores. cbn [MicroLanguageModel_init n_cols n_rows].
  etransitivity; [apply Rsum_abs_le with (c := b * 0.01 * (b * 0.01))|].
  - apply Forall_forall. intros x (j & -> & _)%list_elem_of_fmap.
    rewrite Rabs_mult. apply Rmult_le_compat; try apply Rabs_pos.
    + apply mean_abs_le; [lra|]. apply Forall_forall.
      intros y (r & -> & _)%list_elem_of_fmap.
      cbn [MicroLanguageModel_init embeddings].
      rewrite Rabs_mult, (Rabs_pos_eq 0.01) by lra.
      specialize (He r j). pose proof (Rabs_pos (randn_embeddings rnd r j)). nra.
    + cbn [MicroLanguageModel_init attention_weights]. rewrite Rabs_mult, (Rabs_pos_eq 0.01) by lra.
      specialize (Ha j). pose proof (Rabs_pos (randn_attention rnd j)). nra.
  - by rewrite length_map, length_seq.
Qed.




(** ** Iteration order *)

Section Order.

Context (ho : HashOrder).

Lemma iter_str_empty : iter_str ho ∅ = [].
Proof.
  apply Permutation_nil_r. by rewrite (iter_str_perm ho ∅), elements_empty.
Qed.

Lemma iter_idx_empty : iter_idx ho ∅ = [].
Proof.
  apply Permutation_nil_r. by rewrite (iter_idx_perm ho ∅), elements_empty.
Qed.

Lemma iter_str_singleton x : iter_str ho {[x]} = [x].
Proof.
  apply Permutation_singleton_r.
  by rewrite (iter_str_perm ho {[x]}), elements_singleton.
Qed.

Lemma elem_of_iter_str x X : x ∈ iter_str ho X ↔ x ∈ X.
Proof. by rewrite (iter_str_perm ho X), elem_of_elements. Qed.

Lemma elem_of_iter_idx x X : x ∈ iter_idx ho X ↔ x ∈ X.
Proof. by rewrite (iter_idx_perm ho X), elem_of_elements. Qed.

Lemma NoDup_iter_str X : NoDup (iter_str ho X).
Proof. rewrite (iter_str_perm ho X). apply NoDup_elements. Qed.

Lemma list_to_set_iter_str X : list_to_set (iter_str ho X) = X.
Proof.
  apply set_eq. intros x. by rewrite elem_of_list_to_set, elem_of_iter_str.
Qed.

Lemma length_iter_str X : length (iter_str ho X) = size X.
Proof. by rewrite (iter_str_perm ho X). Qed.

End Order.

(** ** Tokens *)

Lemma split_go_empty cur : PyStr.split_go cur "" =
  match cur with EmptyString => [] | _ => [String.rev cur] end.
Proof. reflexivity. Qed.

Section Tokens.

Context (ho : HashOrder).

Lemma tokenize_raw text : _tokenize ho text = iter_str ho (list_to_set (raw_tokens text)).
Proof.
  destruct text; [|reflexivity].
  simpl. symmetry. apply iter_str_empty.
Qed.

Lemma elem_of_tokenize w text : w ∈ _tokenize ho text ↔ w ∈ raw_tokens text.
Proof. by rewrite tokenize_raw, elem_of_iter_str, elem_of_list_to_set. Qed.

Lemma list_to_set_tokenize text :
  list_to_set (_tokenize ho text) =@{gset string} list_to_set (raw_tokens text).
Proof. by rewrite tokenize_raw, list_to_set_iter_str. Qed.

(** Tokens are lower-case. *)
Lemma lower_token w text : w ∈ _tokenize ho text → PyStr.lower w = w.
Proof.
  rewrite elem_of_tokenize. unfold raw_tokens.
  intros (x & -> & _)%list_elem_of_fmap. apply lower_idem.
Qed.

End Tokens.

(** ** Spelling correction *)

Lemma extractOne_go_some scorer best i choices :
  (∀ b bs k, best = Some (b, bs, k) → (bs == scorer b)%Q) →
  (best ≠ None ∨ choices ≠ []) →
  ∃ w score k,
    extractOne_go scorer best i choices = Some (w, score, k)
    ∧ (score == scorer w)%Q
    ∧ ((∃ k', best = Some (w, score, k')) ∨ w ∈ choices)
    ∧ (∀ w', w' ∈ choices → (scorer w' <= score)%Q)
    ∧ (∀ b bs k', best = Some (b, bs, k') → (bs <= score)%Q).
Proof.
  revert best i. induction choices as [|c choices IH]; intros best i Hbest Hne.
  - destruct best as [[[b bs] k]|]; [|by destruct Hne].
    exists b, bs, k. simpl. split_and!; eauto.
    + intros w' Hw'. by apply elem_of_nil in Hw'.
    + intros ??? [= <- <- <-]. apply Qle_refl.
  - simpl.
    set (best' := match best with
                  | None => Some (c, scorer c, i)
                  | Some (_, best_score, _) =>
                      if Qlt_le_dec best_score (scorer c)
                      then Some (c, scorer c, i) else best
                  end).
    assert (Hbest' : ∀ b bs k, best' = Some (b, bs, k) → (bs == scorer b)%Q).
    { intros b bs k. unfold best'. destruct best as [[[b0 bs0] k0]|].
      - destruct (Qlt_le_dec bs0 (scorer c)); [intros [= <- <- <-]; reflexivity|].
        apply Hbest.
      - intros [= <- <- <-]. reflexivity. }
    assert (Hup : (scorer c <= match best' with Some (_, s, _) => s | None => 0 end)%Q
                  ∧ (∀ b bs k, best = Some (b, bs, k) →
                       (bs <= match best' with Some (_, s, _) => s | None => 0 end)%Q)
                  ∧ (∀ b bs k, best' = Some (b, bs, k) →
                       b = c ∨ ∃ k', best = Some (b, bs, k'))).
    { unfold best'. destruct best as [[[b0 bs0] k0]|].
      - destruct (Qlt_le_dec bs0 (scorer c)) as [Hlt|Hle].
        + split_and!; [apply Qle_refl| |].
          * intros ??? [= <- <- <-]. by apply Qlt_le_weak.
          * intros ??? [= <- <- <-]. by left.
        + split_and!; [done| |].
          * intros ??? [= <- <- <-]. apply Qle_refl.
          * intros ??? [= <- <- <-]. right. eauto.
      - split_and!; [apply Qle_refl|done|].
        intros ??? [= <- <- <-]. by left. }
    destruct Hup as (Hc & Hold & Horigin).
    destruct (IH best' (S i) Hbest') as (w & score & k & Heq & Hsc & Hin & Hmax & Hge).
    { left. unfold best'. destruct best as [[[??]?]|]; [|done].
      by destruct (Qlt_le_dec _ _). }
    exists w, score, k. split_and!; [done|done| | |].
    + destruct Hin as [[k' Hk']|Hin]; [|right; by right].
      destruct (Horigin _ _ _ Hk') as [->|[k'' Hk'']]; [right; by left|left; eauto].
    + intros w' [->|Hw']%elem_of_cons; [|by apply Hmax].
      destruct best' as [[[b1 bs1] k1]|] eqn:Hb'.
      * eapply Qle_trans; [exact Hc|]. by eapply Hge.
      * exfalso. revert Hb'. unfold best'. destruct best as [[[??]?]|]; [|done].
        by destruct (Qlt_le_dec _ _).
    + intros b bs k' Hb.
      destruct best' as [[[b1 bs1] k1]|] eqn:Hb'.
      * eapply Qle_trans; [by eapply Hold|]. by eapply Hge.
      * exfalso. revert Hb'. unfold best'. rewrite Hb. by destruct (Qlt_le_dec _ _).
Qed.

(** On a non-empty list [extractOne] returns a choice of maximal score. *)
Lemma extractOne_some scorer query choices :
  choices ≠ [] →
  ∃ best_match score k,
    extractOne scorer query choices = Some (best_match, score, k)
    ∧ best_match ∈ choices
    ∧ (score == scorer query best_match)%Q
    ∧ (∀ w, w ∈ choices → (scorer query w <= score)%Q).
Proof.
  intros Hne.
  destruct (extractOne_go_some (scorer query) None 0 choices)
    as (w & score & k & Heq & Hsc & Hin & Hmax & _); [done|by right|].
  exists w, score, k. split_and!; try done.
  by destruct Hin as [[? ?]|].
Qed.

(** ** The index builder *)

Lemma dom_enumerate_to_idx (words : list string) :
  dom (enumerate_to_idx words) = list_to_set words.
Proof.
  unfold enumerate_to_idx.
  induction words as [|w words IH] using rev_ind; [simpl; by rewrite dom_empty_L|].
  rewrite imap_app, foldl_app. simpl.
  rewrite dom_insert_L, IH, list_to_set_app_L. simpl. set_solver.
Qed.

Lemma dom_load_words (words : list string) (wf : gmap string nat) :
  dom (load_words words wf) = dom wf ∪ list_to_set (map PyStr.lower words).
Proof.
  unfold load_words. revert wf.
  induction words as [|w words IH]; intros wf; simpl; [set_solver|].
  rewrite IH, dom_insert_L. set_solver.
Qed.

Section Builder.

Context (ho : HashOrder) (collab : Collaborators).

Lemma vocabulary_snoc commands cmd :
  vocabulary ho (commands ++ [cmd])
  = vocabulary ho commands ∪ list_to_set (raw_tokens (search_text cmd)).
Proof.
  unfold vocabulary. rewrite foldl_app. simpl.
  by rewrite list_to_set_tokenize.
Qed.

Lemma elem_of_vocabulary w commands :
  w ∈ vocabulary ho commands
  ↔ ∃ cmd, cmd ∈ commands ∧ w ∈ raw_tokens (search_text cmd).
Proof.
  induction commands as [|cmd commands IH] using rev_ind.
  - unfold vocabulary. simpl. split; [set_solver|].
    intros (cmd & Hcmd & _). by apply elem_of_nil in Hcmd.
  - rewrite vocabulary_snoc, elem_of_union, IH, elem_of_list_to_set.
    split.
    + intros [(c & Hc & Hw)|Hw].
      * exists c. split; [apply elem_of_app; by left|done].
      * exists cmd. split; [apply elem_of_app; right; by apply list_elem_of_singleton|done].
    + intros (c & [Hc|Hc%list_elem_of_singleton]%elem_of_app & Hw).
      * left. eauto.
      * right. by subst.
Qed.

Lemma lower_vocabulary w commands :
  w ∈ vocabulary ho commands → PyStr.lower w = w.
Proof.
  rewrite elem_of_vocabulary. intros (cmd & _ & Hw).
  unfold raw_tokens in Hw. apply list_elem_of_fmap in Hw as (x & -> & _).
  apply lower_idem.
Qed.

Lemma all_words_build_index rnd commands self :
  list_to_set (all_words (build_index ho rnd commands self)) = vocabulary ho commands.
Proof. simpl. apply list_to_set_iter_str. Qed.

Lemma dom_word_to_idx_build_index rnd commands self :
  dom (word_to_idx (build_index ho rnd commands self)) = vocabulary ho commands.
Proof. simpl. by rewrite dom_enumerate_to_idx, list_to_set_iter_str. Qed.

(** An empty catalog yields an empty vocabulary and an index with no
    entries. *)
Lemma build_index_empty rnd self :
  all_words (build_index ho rnd [] self) = []
  ∧ word_to_idx (build_index ho rnd [] self) = ∅
  ∧ word_index (build_index ho rnd [] self) = ∅
  ∧ command_keywords (build_index ho rnd [] self) = [].
Proof.
  simpl. unfold vocabulary. simpl. rewrite iter_str_empty. done.
Qed.

End Builder.

Section Spelling.

Context (ho : HashOrder) (collab : Collaborators).

(** What [_correct_spelling] returns when the vocabulary is not empty:
    the token itself when it is in the vocabulary; otherwise the
    dictionary correction when there is one and it is in the
    vocabulary; otherwise the best fuzzy match when its score exceeds
    80, and the token itself when it does not. *)
Lemma correct_spelling_nonempty (self : CommandSearcher) (word : string) :
  all_words self ≠ [] →
  ∃ best_match score k,
    extractOne (fuzz_WRatio collab) word (all_words self) = Some (best_match, score, k)
    ∧ best_match ∈ all_words self
    ∧ (score == fuzz_WRatio collab word best_match)%Q
    ∧ (∀ w, w ∈ all_words self → (fuzz_WRatio collab word w <= score)%Q)
    ∧ _correct_spelling collab self word =
        if decide (word ∈ dom (word_to_idx self)) then Ok word
        else match SpellChecker_correction collab (spell_checker self) word with
             | Some correction =>
                 if decide (correction ≠ ""%string
                            ∧ correction ∈ dom (word_to_idx self))
                 then Ok correction
                 else Ok (if Qlt_le_dec 80 score then best_match else word)
             | None => Ok (if Qlt_le_dec 80 score then best_match else word)
             end.
Proof.
  intros Hne.
  destruct (extractOne_some (fuzz_WRatio collab) word _ Hne)
    as (best_match & score & k & Heq & Hin & Hsc & Hmax).
  exists best_match, score, k. split_and!; try done.
  unfold _correct_spelling, fuzzy_match. by rewrite Heq.
Qed.

Lemma correct_spelling_empty (self : CommandSearcher) (word : string) :
  all_words self = [] → word_to_idx self = ∅ →
  _correct_spelling collab self word = Raise TypeError.
Proof.
  intros Hall Hidx. unfold _correct_spelling, fuzzy_match.
  rewrite Hall, Hidx, dom_empty_L. simpl.
  rewrite decide_False by set_solver.
  destruct (SpellChecker_correction _ _ _); [|done].
  rewrite decide_False by set_solver. done.
Qed.

(** C7 (failing input). With the empty vocabulary of an empty catalog,
    a token has no correction in the vocabulary and no fuzzy match:
    [_correct_spelling] does not return the token, it raises
    [TypeError]. *)
Theorem correct_spelling_empty_vocabulary (rnd : Randn) (self : CommandSearcher)
    (word : string) :
  _correct_spelling collab (build_index ho rnd [] self) word = Raise TypeError.
Proof.
  destruct (build_index_empty ho rnd self) as (Hall & Hidx & _).
  by apply correct_spelling_empty.
Qed.

(** C1 (failing input). After [build_index] on the empty catalog the
    vocabulary is empty and the index has no entries, but
    [search("hello")] does not return the empty list: it raises
    [TypeError]. *)
Theorem search_empty_catalog_raises (rnd : Randn) (self : CommandSearcher) :
  let built := build_index ho rnd [] self in
  all_words built = [] ∧ word_index built = ∅
  ∧ search ho collab built "hello" [] = Raise TypeError.
Proof.
  destruct (build_index_empty ho rnd self) as (Hall & Hidx & Hwi & _).
  split_and!; [done|done|].
  unfold search. rewrite decide_False by done.
  unfold query_words_of. rewrite tokenize_raw.
  change (raw_tokens "hello") with ["hello"%string].
  replace (list_to_set ["hello"%string]) with ({["hello"%string]} : gset string)
    by set_solver.
  rewrite iter_str_singleton. simpl.
  by rewrite (correct_spelling_empty _ _ Hall Hidx).
Qed.

End Spelling.

Example raw_tokens_default_1 :
  raw_tokens "ssh connect with private key ssh username@host -i id_rsa Connect SSH using private key authentication"
  = ["ssh"; "connect"; "with"; "private"; "key"; "ssh"; "username@host"; "id_rsa";
     "connect"; "ssh"; "using"; "private"; "key"; "authentication"]%string.
Proof. reflexivity. Qed.

(** ** The spelling dictionary after a build *)

Section KnownWords.

Context (ho : HashOrder).

Lemma known_words_build_index rnd commands self :
  known_words (spell_checker (build_index ho rnd commands self))
  = known_words (spell_checker self) ∪ vocabulary ho commands.
Proof.
  unfold known_words. simpl. rewrite dom_load_words. f_equal.
  apply set_eq. intros w. rewrite elem_of_list_to_set, list_elem_of_fmap.
  split.
  - intros (x & -> & Hx). apply elem_of_iter_str in Hx.
    by rewrite (lower_vocabulary ho _ _ Hx).
  - intros Hw. exists w. split; [by rewrite (lower_vocabulary ho _ _ Hw)|].
    by apply elem_of_iter_str.
Qed.

(** C2 (as the code has it). After [build_index] the word list is the
    vocabulary of the catalog and every word of it is known to the
    spelling checker; [load_words] adds to the checker's table and
    removes nothing from it. *)
Theorem build_index_loads_vocabulary rnd commands self :
  let built := build_index ho rnd commands self in
  list_to_set (all_words built) = vocabulary ho commands
  ∧ vocabulary ho commands ⊆ known_words (spell_checker built).
Proof.
  split; [apply all_words_build_index|].
  rewrite known_words_build_index. set_solver.
Qed.

End KnownWords.

(** C2 as stated fails: after the default catalog has been indexed and
    then the empty catalog, the checker still knows ["ssh"], which is not
    in the (empty) vocabulary. *)
Lemma known_words_not_reset :
  ¬ (∀ (ho : HashOrder) (rnd : Randn) (commands : list Command)
       (self : CommandSearcher),
       known_words (spell_checker (build_index ho rnd commands self))
       = vocabulary ho commands).
Proof.
  intros H.
  specialize (H elements_order zero_randn []
    (build_index elements_order zero_randn default_commands
       (CommandSearcher_init silent_collaborators))).
  rewrite !known_words_build_index in H.
  assert (Hssh : "ssh"%string ∈ vocabulary elements_order default_commands).
  { apply elem_of_vocabulary. eexists. split; [apply list_elem_of_here|].
    change (search_text _) with
      "ssh connect with private key ssh username@host -i id_rsa Connect SSH using private key authentication"%string.
    rewrite raw_tokens_default_1. apply list_elem_of_here. }
  assert (Hin : "ssh"%string ∈ vocabulary elements_order []).
  { rewrite <- H. apply elem_of_union. left. apply elem_of_union. by right. }
  clear H Hssh. unfold vocabulary in Hin. simpl in Hin.
  by apply not_elem_of_empty in Hin.
Qed.

(** ** The heap and the sort *)

Lemma elem_of_list_insert_inv {A} (l : list A) (i : nat) (x y : A) :
  y ∈ <[i := x]> l → y = x ∨ y ∈ l.
Proof.
  intros [j Hj]%list_elem_of_lookup.
  apply list_lookup_insert_Some in Hj as [(-> & -> & _)|(_ & Hj)]; [by left|].
  right. by eapply list_elem_of_lookup_2.
Qed.

Lemma siftdown_S fuel heap newitem pos :
  _siftdown (S fuel) heap newitem pos =
  if decide (0 < pos)%nat then
    match heap !! ((pos - 1) / 2)%nat with
    | Some parent =>
        if item_lt newitem parent
        then _siftdown fuel (<[pos := parent]> heap) newitem ((pos - 1) / 2)%nat
        else <[pos := newitem]> heap
    | None => <[pos := newitem]> heap
    end
  else <[pos := newitem]> heap.
Proof. reflexivity. Qed.

Lemma elem_of_siftdown fuel heap newitem pos y :
  y ∈ _siftdown fuel heap newitem pos → y = newitem ∨ y ∈ heap.
Proof.
  revert heap pos. induction fuel as [|fuel IH]; intros heap pos.
  - apply elem_of_list_insert_inv.
  - rewrite siftdown_S. destruct (decide (0 < pos)%nat); [|apply elem_of_list_insert_inv].
    destruct (heap !! ((pos - 1) / 2)%nat) as [parent|] eqn:Hp;
      [|apply elem_of_list_insert_inv].
    destruct (item_lt newitem parent); [|apply elem_of_list_insert_inv].
    intros [->|Hy]%IH; [by left|].
    apply elem_of_list_insert_inv in Hy as [->|Hy]; [|by right].
    right. by eapply list_elem_of_lookup_2.
Qed.

Lemma length_siftdown fuel heap newitem pos :
  length (_siftdown fuel heap newitem pos) = length heap.
Proof.
  revert heap pos. induction fuel as [|fuel IH]; intros heap pos.
  - apply length_insert.
  - rewrite siftdown_S. destruct (decide (0 < pos)%nat); [|apply length_insert].
    destruct (heap !! ((pos - 1) / 2)%nat) as [parent|]; [|apply length_insert].
    destruct (item_lt newitem parent); [|apply length_insert].
    by rewrite IH, length_insert.
Qed.

(** The loop of [_siftdown] stops by itself: more fuel than [pos]
    changes nothing. *)
Lemma siftdown_fuel fuel heap newitem pos :
  (pos ≤ fuel)%nat →
  _siftdown (S fuel) heap newitem pos = _siftdown fuel heap newitem pos.
Proof.
  revert heap pos. induction fuel as [|fuel IH]; intros heap pos Hpos.
  - rewrite siftdown_S. by rewrite decide_False by lia.
  - rewrite (siftdown_S (S fuel)), (siftdown_S fuel).
    destruct (decide (0 < pos)%nat) as [Hp|]; [|done].
    destruct (heap !! ((pos - 1) / 2)%nat) as [parent|]; [|done].
    destruct (item_lt newitem parent); [|done].
    apply IH.
    assert ((pos - 1) / 2 ≤ pos - 1)%nat by (apply Nat.Div0.div_le_upper_bound; lia).
    lia.
Qed.

Lemma insert_cons_swap {A} (t : list A) (j : nat) (x y : A) :
  (j < length t)%nat → y :: <[j := x]> t ≡ₚ x :: <[j := y]> t.
Proof.
  revert j. induction t as [|h t IH]; intros [|j] Hj; simpl in *; try lia.
  - apply perm_swap.
  - rewrite (perm_swap h y), (perm_swap h x). f_equiv. apply IH. lia.
Qed.

Lemma insert_insert_swap {A} (l : list A) (i j : nat) (x y : A) :
  i ≠ j → l !! i = Some x → (j < length l)%nat →
  <[i := y]> (<[j := x]> l) ≡ₚ <[j := y]> l.
Proof.
  revert i j. induction l as [|h t IH]; intros [|i] [|j] Hne Hi Hj;
    simpl in *; try done; try lia.
  - injection Hi as ->. apply insert_cons_swap. lia.
  - rewrite <- (insert_cons_swap t i x y) by by eapply lookup_lt_Some.
    by rewrite (list_insert_id t i x Hi).
  - f_equiv. apply IH; [congruence|done|lia].
Qed.

(** [_siftdown] moves items and neither drops nor repeats one. *)
Lemma siftdown_perm fuel heap newitem pos :
  (pos < length heap)%nat →
  _siftdown fuel heap newitem pos ≡ₚ <[pos := newitem]> heap.
Proof.
  revert heap pos. induction fuel as [|fuel IH]; intros heap pos Hpos; [done|].
  rewrite siftdown_S.
  destruct (decide (0 < pos)%nat) as [Hp|]; [|done].
  destruct (heap !! ((pos - 1) / 2)%nat) as [parent|] eqn:Hparent; [|done].
  destruct (item_lt newitem parent); [|done].
  assert (Hlt : ((pos - 1) / 2 < pos)%nat).
  { assert ((pos - 1) / 2 ≤ pos - 1)%nat by (apply Nat.Div0.div_le_upper_bound; lia).
    lia. }
  rewrite IH by (rewrite length_insert; lia).
  apply insert_insert_swap; [lia|done|done].
Qed.

Lemma heappush_perm heap x : heappush heap x ≡ₚ x :: heap.
Proof.
  unfold heappush. rewrite siftdown_perm by (rewrite length_app; simpl; lia).
  rewrite insert_app_r_alt, Nat.sub_diag by done. simpl.
  by rewrite Permutation_app_comm.
Qed.

Lemma elem_of_heappush heap x y : y ∈ heappush heap x → y = x ∨ y ∈ heap.
Proof.
  unfold heappush. intros [->|Hy]%elem_of_siftdown; [by left|].
  apply elem_of_app in Hy as [Hy|Hy%list_elem_of_singleton]; auto.
Qed.

Lemma length_heappush heap x : length (heappush heap x) = S (length heap).
Proof.
  unfold heappush. rewrite length_siftdown, length_app. simpl. lia.
Qed.

Lemma insert_by_key_perm x l : insert_by_key x l ≡ₚ x :: l.
Proof.
  induction l as [|y l IH]; simpl; [done|].
  destruct (Rle_dec x.1 y.1); [done|].
  rewrite IH. apply perm_swap.
Qed.

Lemma sorted_by_key_perm l : sorted_by_key l ≡ₚ l.
Proof.
  induction l as [|x l IH]; simpl; [done|].
  by rewrite insert_by_key_perm, IH.
Qed.

Lemma insert_by_key_sorted x l :
  StronglySorted key_le l → StronglySorted key_le (insert_by_key x l).
Proof.
  induction 1 as [|y l Hl IH Hy]; simpl.
  - repeat constructor.
  - destruct (Rle_dec x.1 y.1) as [Hxy|Hxy].
    + constructor; [by constructor|].
      constructor; [done|].
      eapply Forall_impl; [exact Hy|]. intros z Hz. unfold key_le in *. lra.
    + constructor; [done|].
      rewrite insert_by_key_perm. constructor; [|done].
      unfold key_le. lra.
Qed.

Lemma sorted_by_key_sorted l : StronglySorted key_le (sorted_by_key l).
Proof.
  induction l as [|x l IH]; simpl; [constructor|].
  by apply insert_by_key_sorted.
Qed.

Lemma StronglySorted_take {A} (R : relation A) n l :
  StronglySorted R l → StronglySorted R (take n l).
Proof.
  intros Hl. revert n. induction Hl as [|x l Hl IH Hx]; intros [|n]; simpl;
    try constructor; [apply IH|].
  apply Forall_take. done.
Qed.

(** ** Monadic maps *)

Lemma mapM_Ok_Forall2 {A B} (f : A → result B) (l : list A) (k : list B) :
  mapM f l = Ok k ↔ Forall2 (fun a b => f a = Ok b) l k.
Proof.
  revert k. induction l as [|a l IH]; intros k; simpl.
  - split; [intros [= <-]; constructor|by inversion 1].
  - split.
    + destruct (f a) as [b|e] eqn:Hfa; [|done]. cbn.
      destruct (mapM f l) as [bs|e] eqn:Hl; [|done]. cbn.
      intros [= <-]. constructor; [done|]. by apply IH.
    + inversion 1 as [|? b ? bs Hfa Hl]; subst.
      apply IH in Hl. rewrite Hfa. cbn. rewrite Hl. done.
Qed.

Lemma mapM_is_Ok {A B} (f : A → result B) (l : list A) :
  (∀ a, a ∈ l → ∃ b, f a = Ok b) → ∃ k, mapM f l = Ok k.
Proof.
  induction l as [|a l IH]; intros Hf; simpl; [by eexists|].
  destruct (Hf a) as [b Hb]; [by left|].
  destruct IH as [k Hk]; [intros a' Ha'; apply Hf; by right|].
  exists (b :: k). rewrite Hb. cbn. by rewrite Hk.
Qed.

(** ** Real vectors *)

Lemma Rsum_squares_nonneg u : 0 <= Rsum (map (fun x => x * x) u).
Proof.
  induction u as [|x u IH]; simpl; [rewrite Rsum_nil; lra|].
  rewrite Rsum_cons. nra.
Qed.

Lemma cauchy_schwarz_step x y A B D :
  0 <= A → 0 <= B → D * D <= A * B →
  2 * (x * y) * D <= x * x * B + A * (y * y).
Proof.
  intros HA HB IH.
  set (p := 2 * (x * y) * D). set (q := x * x * B + A * (y * y)).
  assert (Hq : 0 <= q) by (unfold q; nra).
  destruct (Rle_dec p q) as [|Hpq]; [done|]. apply Rnot_le_lt in Hpq.
  assert (Hsq : p * p <= q * q).
  { assert (H4 : 4 * (x * x) * (y * y) * (D * D) <= 4 * (x * x) * (y * y) * (A * B)).
    { apply Rmult_le_compat_l; [nra|exact IH]. }
    pose proof (Rle_0_sqr (x * x * B - A * (y * y))) as Hs. unfold Rsqr in Hs.
    unfold p, q. nra. }
  nra.
Qed.

(** Cauchy-Schwarz on the common prefix of two vectors. *)
Lemma cauchy_schwarz u v :
  dot u v * dot u v
  <= Rsum (map (fun x => x * x) u) * Rsum (map (fun x => x * x) v).
Proof.
  unfold dot. revert v. induction u as [|x u IH]; intros v.
  - simpl. rewrite Rsum_nil. lra.
  - destruct v as [|y v].
    + simpl. rewrite Rsum_nil. lra.
    + simpl. rewrite !Rsum_cons.
      specialize (IH v).
      pose proof (Rsum_squares_nonneg u) as HA.
      pose proof (Rsum_squares_nonneg v) as HB.
      set (D := Rsum (zip_with Rmult u v)) in *.
      set (A := Rsum (map (fun x => x * x) u)) in *.
      set (B := Rsum (map (fun x => x * x) v)) in *.
      assert (Hmix : 2 * (x * y) * D <= x * x * B + A * (y * y))
        by (by apply cauchy_schwarz_step).
      nra.
Qed.

Lemma norm_nonneg u : 0 <= norm u.
Proof. apply sqrt_pos. Qed.

Lemma dot_le_norm u v : dot u v <= norm u * norm v.
Proof.
  unfold norm. rewrite <- sqrt_mult_alt by apply Rsum_squares_nonneg.
  pose proof (cauchy_schwarz u v) as Hcs.
  destruct (Rle_dec (dot u v) 0) as [Hneg|Hpos].
  - eapply Rle_trans; [exact Hneg|apply sqrt_pos].
  - apply Rnot_le_lt in Hpos.
    rewrite <- (sqrt_square (dot u v)) by lra.
    by apply sqrt_le_1_alt.
Qed.

Lemma dot_nonneg u v :
  Forall (fun x => 0 < x) u → Forall (fun x => 0 < x) v → 0 <= dot u v.
Proof.
  unfold dot. intros Hu. revert v.
  induction Hu as [|x u Hx Hu IH]; intros v Hv; [simpl; rewrite Rsum_nil; lra|].
  destruct Hv as [|y v Hy Hv]; [simpl; rewrite Rsum_nil; lra|].
  simpl. rewrite Rsum_cons. specialize (IH v Hv). nra.
Qed.

Lemma sigmoid_pos x : 0 < sigmoid x.
Proof.
  unfold sigmoid. pose proof (exp_pos (- x)).
  apply Rdiv_lt_0_compat; lra.
Qed.

Lemma sigmoid_lt_1 x : sigmoid x < 1.
Proof.
  unfold sigmoid. pose proof (exp_pos (- x)).
  apply (Rmult_lt_reg_r (1 + exp (- x))); [lra|].
  field_simplify; lra.
Qed.

(** The three features of a forward pass lie strictly between 0 and 1. *)
Lemma forward_features m ids v :
  forward m ids = Ok v → length v = 3%nat ∧ Forall (fun x => 0 < x < 1) v.
Proof.
  destruct ids as [|idx ids].
  - intros [= <-]. split; [done|]. repeat constructor; lra.
  - unfold forward. destruct (mapM (row_of m) (idx :: ids)) as [rows|e]; [|done].
    cbn [mbind result_bind]. intros [= <-]. split; [done|].
    repeat constructor; auto using sigmoid_pos, sigmoid_lt_1.
Qed.

Lemma forward_pos m ids v : forward m ids = Ok v → Forall (fun x => 0 < x) v.
Proof.
  intros [_ Hv]%forward_features. eapply Forall_impl; [exact Hv|].
  simpl. intros x. lra.
Qed.

(** ** Features and scores *)

Section Scores.

Context (ho : HashOrder).

Lemma analyze_with_lm_bounds self query_words cmd_words x :
  _analyze_with_lm ho self query_words cmd_words = Ok x → 1 / 2 <= x < 1.
Proof.
  unfold _analyze_with_lm. destruct (lm self) as [m|]; [|done].
  destruct (forward m (_get_word_indices self query_words))
    as [qf|] eqn:Hq; cbn [mbind result_bind]; [|done].
  destruct (forward m (_get_word_indices self (iter_str ho cmd_words)))
    as [cf|] eqn:Hc; cbn [mbind result_bind]; [|done].
  intros [= <-].
  pose proof (dot_le_norm qf cf) as Hcs.
  pose proof (dot_nonneg qf cf (forward_pos _ _ _ Hq) (forward_pos _ _ _ Hc)) as Hd.
  pose proof (norm_nonneg qf) as Hnq. pose proof (norm_nonneg cf) as Hnc.
  assert (Hden : 0 < norm qf * norm cf + 1e-6) by nra.
  assert (Hsim : 0 <= dot qf cf / (norm qf * norm cf + 1e-6) < 1).
  { split.
    - apply Rle_mult_inv_pos; lra.
    - apply (Rmult_lt_reg_r (norm qf * norm cf + 1e-6)); [done|].
      unfold Rdiv. rewrite Rmult_assoc, Rinv_l by lra. lra. }
  lra.
Qed.

Lemma size_matched_le_query query_words cmd_words :
  (size (matched_words query_words cmd_words) ≤ size (list_to_set query_words : gset string)
   ∧ size (list_to_set query_words : gset string) ≤ length query_words)%nat.
Proof.
  split.
  - apply subseteq_size. unfold matched_words. set_solver.
  - induction query_words as [|w ws IH]; [by rewrite list_to_set_nil, size_empty|].
    rewrite list_to_set_cons, size_union_alt, size_singleton. simpl.
    assert (size (list_to_set ws ∖ {[w]} : gset string) ≤ size (list_to_set ws : gset string))%nat
      by (apply subseteq_size; set_solver).
    lia.
Qed.

Lemma size_matched_le_cmd query_words cmd_words :
  (size (matched_words query_words cmd_words) ≤ size cmd_words)%nat.
Proof. apply subseteq_size. unfold matched_words. set_solver. Qed.

Lemma ratio_bounds (a b : nat) : (a ≤ b)%nat → (0 < b)%nat → 0 <= INR a / INR b <= 1.
Proof.
  intros Hab Hb. apply le_INR in Hab. apply lt_INR in Hb. simpl in Hb.
  pose proof (pos_INR a). split.
  - apply Rle_mult_inv_pos; lra.
  - apply (Rmult_le_reg_r (INR b)); [done|].
    unfold Rdiv. rewrite Rmult_assoc, Rinv_l by lra. lra.
Qed.

Lemma coverage_bounds query_words cmd_words :
  query_words ≠ [] → 0 <= coverage query_words cmd_words <= 1.
Proof.
  intros Hne. unfold coverage. apply ratio_bounds.
  - destruct (size_matched_le_query query_words cmd_words). lia.
  - destruct query_words; [done|simpl; lia].
Qed.

Lemma density_bounds query_words cmd_words :
  0 <= density query_words cmd_words <= 1.
Proof.
  unfold density. destruct (decide (cmd_words = ∅)) as [|Hne]; [lra|].
  apply ratio_bounds; [apply size_matched_le_cmd|].
  assert (size cmd_words ≠ 0%nat); [|lia].
  intros Hz. apply Hne. by apply leibniz_equiv, size_empty_iff.
Qed.

(** The combined score of a candidate is at least 0.3 and at most 1. *)
Lemma candidate_score_bounds self query_words idx score :
  query_words ≠ [] →
  candidate_score ho self query_words idx = Ok score →
  0.3 <= score <= 1.
Proof.
  intros Hne. unfold candidate_score.
  destruct (command_keywords self !! idx) as [cw|]; [|done].
  destruct (_analyze_with_lm ho self query_words cw) as [x|] eqn:Hx;
    cbn [mbind result_bind]; [|done].
  intros [= <-].
  apply analyze_with_lm_bounds in Hx.
  pose proof (coverage_bounds query_words cw Hne).
  pose proof (density_bounds query_words cw). lra.
Qed.

End Scores.

(** ** The shape of a search result *)

Section SearchShape.

Context (ho : HashOrder) (collab : Collaborators).

Lemma score_candidate_elem self qw heap idx heap' y :
  score_candidate ho self qw heap idx = Ok heap' → y ∈ heap' →
  y ∈ heap
  ∨ ∃ score, candidate_score ho self qw idx = Ok score ∧ 0.3 < score
             ∧ y = (- score, idx).
Proof.
  unfold score_candidate.
  destruct (candidate_score ho self qw idx) as [score|];
    cbn [mbind result_bind]; [|done].
  intros [= <-]. destruct (Rlt_dec 0.3 score) as [Hlt|]; [|by left].
  intros [->|Hy]%elem_of_heappush; [right; eauto|by left].
Qed.

Lemma score_candidates_elem self qw heap cands heap' y :
  score_candidates ho self qw heap cands = Ok heap' → y ∈ heap' →
  y ∈ heap
  ∨ ∃ idx score, idx ∈ cands ∧ candidate_score ho self qw idx = Ok score
                 ∧ 0.3 < score ∧ y = (- score, idx).
Proof.
  revert heap. induction cands as [|idx cands IH]; intros heap; simpl.
  - intros [= <-]. by left.
  - destruct (score_candidate ho self qw heap idx) as [heap1|] eqn:H1;
      cbn [mbind result_bind]; [|done].
    intros Hrest Hy. destruct (IH _ Hrest Hy) as [Hy1|(i & sc & Hi & Hsc & Hlt & ->)].
    + destruct (score_candidate_elem _ _ _ _ _ _ H1 Hy1)
        as [|(sc & Hsc & Hlt & ->)]; [by left|].
      right. exists idx, sc. split_and!; try done. by left.
    + right. exists i, sc. split_and!; try done. by right.
Qed.

(** A result of [search] is empty, or it is the image of the first
    three items of the sorted heap that the scoring loop fills from
    the candidates of the corrected query. *)
Lemma search_inv self query commands res :
  search ho collab self query commands = Ok res →
  res = []
  ∨ ∃ qw heap,
      qw ≠ []
      ∧ query_words_of ho collab self query = Ok qw
      ∧ score_candidates ho self qw [] (iter_idx ho (candidate_indices_of self qw))
        = Ok heap
      ∧ Forall2 (returned commands) (take 3 (sorted_by_key heap)) res.
Proof.
  unfold search. destruct (decide (PyStr.strip query = ""%string)).
  { intros [= <-]. by left. }
  destruct (query_words_of ho collab self query) as [qw|] eqn:Hqw;
    cbn [mbind result_bind]; [|done].
  destruct qw as [|w qw]; [intros [= <-]; by left|].
  destruct (score_candidates ho self (w :: qw) [] _) as [heap|] eqn:Hheap;
    cbn [mbind result_bind]; [|done].
  intros Hres. right. exists (w :: qw), heap. split_and!; try done.
  apply mapM_Ok_Forall2 in Hres.
  eapply Forall2_impl; [exact Hres|].
  intros [s idx] [cmd sc]. unfold getitem. simpl.
  destruct (commands !! idx) as [c|] eqn:Hc; cbn [mbind result_bind]; [|done].
  intros [= -> <-]. by split.
Qed.

(** Every returned pair is a candidate of the corrected query with
    its combined score, which exceeds the threshold. *)
Lemma search_returned self query commands res cmd sc :
  search ho collab self query commands = Ok res → (cmd, sc) ∈ res →
  ∃ qw idx,
    qw ≠ []
    ∧ query_words_of ho collab self query = Ok qw
    ∧ idx ∈ candidate_indices_of self qw
    ∧ commands !! idx = Some cmd
    ∧ candidate_score ho self qw idx = Ok sc
    ∧ 0.3 < sc.
Proof.
  intros Hs Hin. apply search_inv in Hs as [->|(qw & heap & Hne & Hqw & Hheap & Hres)].
  { by apply elem_of_nil in Hin. }
  apply list_elem_of_lookup in Hin as [i Hi].
  destruct (Forall2_lookup_r _ _ _ _ _ Hres Hi) as ([s idx] & Hx & Hcmd & Hsc).
  simpl in Hcmd, Hsc.
  assert (Hmem : (s, idx) ∈ heap).
  { rewrite <- (sorted_by_key_perm heap).
    apply list_elem_of_lookup_2 in Hx. apply elem_of_take in Hx as (j & Hj & _).
    by eapply list_elem_of_lookup_2. }
  destruct (score_candidates_elem _ _ _ _ _ _ Hheap Hmem)
    as [Hnil|(idx' & score & Hidx & Hscore & Hlt & [= -> ->])].
  { by apply elem_of_nil in Hnil. }
  exists qw, idx'. split_and!; try done.
  - by apply elem_of_iter_idx in Hidx.
  - rewrite Hsc, Ropp_involutive. done.
  - rewrite Hsc, Ropp_involutive. done.
Qed.

(** C3. Every (record, score) pair returned by [search] has a score
    strictly greater than 0.3 and at most 1. *)
Theorem search_score_bounds (self : CommandSearcher) (query : string)
    (commands : list Command) (res : list (Command * R)) (cmd : Command) (sc : R) :
  search ho collab self query commands = Ok res → (cmd, sc) ∈ res →
  0.3 < sc <= 1.
Proof.
  intros Hs Hin.
  destruct (search_returned _ _ _ _ _ _ Hs Hin)
    as (qw & idx & Hne & _ & _ & _ & Hscore & Hlt).
  split; [done|]. by eapply candidate_score_bounds.
Qed.

Lemma Forall2_StronglySorted {A B} (P : A → B → Prop) (R1 : relation A)
    (R2 : relation B) l k :
  (∀ a b a' b', P a a' → P b b' → R1 a b → R2 a' b') →
  Forall2 P l k → StronglySorted R1 l → StronglySorted R2 k.
Proof.
  intros HR HF. induction HF as [|a a' l k Ha HF IH]; [constructor|].
  intros [Hl Hal]%StronglySorted_inv. constructor; [by apply IH|].
  clear IH Hl. induction HF as [|b b' l k Hb HF IH]; [constructor|].
  apply Forall_cons in Hal as [Hab Hal]. constructor; [by eapply HR|by apply IH].
Qed.

(** C4 (as the code has it). The list returned by [search] has at most
    3 entries and its scores never increase from one entry to a later
    one; equal scores may follow each other. *)
Theorem search_top3_sorted (self : CommandSearcher) (query : string)
    (commands : list Command) (res : list (Command * R)) :
  search ho collab self query commands = Ok res →
  (length res ≤ 3)%nat ∧ StronglySorted (fun a b => b.2 <= a.2) res.
Proof.
  intros [->|(qw & heap & _ & _ & _ & Hres)]%search_inv.
  { split; [simpl; lia|constructor]. }
  split.
  - rewrite <- (Forall2_length _ _ _ Hres), length_take. lia.
  - eapply (Forall2_StronglySorted _ key_le); [|exact Hres|].
    + intros a b a' b' [_ Ha] [_ Hb]. rewrite Ha, Hb. unfold key_le. lra.
    + apply StronglySorted_take, sorted_by_key_sorted.
Qed.

End SearchShape.

(** ** The inverted index and the keyword sets *)

Section Index.

Context (ho : HashOrder).

Lemma keyword_set_raw cmd :
  keyword_set ho cmd = list_to_set (raw_tokens (search_text cmd)).
Proof. apply list_to_set_tokenize. Qed.

Lemma elem_of_keyword_set w cmd :
  w ∈ keyword_set ho cmd ↔ w ∈ raw_tokens (search_text cmd).
Proof. by rewrite keyword_set_raw, elem_of_list_to_set. Qed.

Lemma index_add_fold idx wi words w i :
  i ∈ default ∅ (foldl (index_add idx) wi words !! w)
  ↔ i ∈ default ∅ (wi !! w) ∨ (i = idx ∧ w ∈ words).
Proof.
  revert wi. induction words as [|x words IH]; intros wi; simpl.
  - split; [by left|]. intros [|[_ H]]; [done|]. by apply elem_of_nil in H.
  - rewrite IH. unfold index_add.
    destruct (decide (x = w)) as [->|Hne].
    + rewrite lookup_insert_eq. simpl. rewrite elem_of_union, elem_of_singleton.
      split.
      * intros [[Hi | ->] | [-> Hw]]; [by left|right; split; [done|by left]|].
        right. split; [done|by right].
      * intros [|[-> Hw]]; [left; by left|].
        left. by right.
    + rewrite lookup_insert_ne by done.
      split.
      * intros [|[-> Hw]]; [by left|]. right. split; [done|by right].
      * intros [|[-> [->|Hw]%elem_of_cons]]; [by left|done|]. by right.
Qed.

Lemma index_commands_snoc commands cmd :
  index_commands ho (commands ++ [cmd])
  = (foldl (index_add (length commands)) (index_commands ho commands).1
           (_tokenize ho (search_text cmd)),
     ((index_commands ho commands).2 ++ [keyword_set ho cmd])%list).
Proof.
  unfold index_commands. rewrite imap_app, foldl_app. simpl.
  destruct (foldl _ _ (imap pair commands)) as [wi ck]. simpl.
  by rewrite Nat.add_0_r.
Qed.

Lemma command_keywords_index commands :
  (index_commands ho commands).2 = map (keyword_set ho) commands.
Proof.
  induction commands as [|cmd commands IH] using rev_ind; [done|].
  rewrite index_commands_snoc, map_app. simpl. by rewrite IH.
Qed.

Lemma word_index_index commands w i :
  i ∈ default ∅ ((index_commands ho commands).1 !! w)
  ↔ ∃ cmd, commands !! i = Some cmd ∧ w ∈ keyword_set ho cmd.
Proof.
  induction commands as [|cmd commands IH] using rev_ind.
  - unfold index_commands. simpl. rewrite lookup_empty. simpl.
    split; [set_solver|]. by intros (? & ? & _).
  - rewrite index_commands_snoc. simpl. rewrite index_add_fold, IH.
    split.
    + intros [(c & Hc & Hw)|[-> Hw]].
      * exists c. split; [|done]. by apply lookup_app_l_Some.
      * exists cmd. split.
        -- rewrite lookup_app_r by done. by rewrite Nat.sub_diag.
        -- unfold keyword_set. by apply elem_of_list_to_set.
    + intros (c & Hc & Hw).
      apply lookup_app_Some in Hc as [Hc|[Hlen Hc]]; [left; eauto|].
      right. destruct (i - length commands)%nat as [|n] eqn:Hn; [|done].
      simpl in Hc. injection Hc as <-.
      split; [lia|]. unfold keyword_set in Hw. by apply elem_of_list_to_set in Hw.
Qed.

Lemma elem_of_candidate_indices self qw i :
  i ∈ candidate_indices_of self qw
  ↔ ∃ w, w ∈ qw ∧ i ∈ default ∅ (word_index self !! w).
Proof.
  unfold candidate_indices_of.
  induction qw as [|w qw IH] using rev_ind; simpl.
  - split; [set_solver|]. intros (w & Hw & _). by apply elem_of_nil in Hw.
  - rewrite foldl_app. simpl. rewrite elem_of_union, IH.
    split.
    + intros [(w' & Hw' & Hi)|Hi].
      * exists w'. split; [apply elem_of_app; by left|done].
      * exists w. split; [apply elem_of_app; right; by apply list_elem_of_singleton|done].
    + intros (w' & [Hw'|Hw'%list_elem_of_singleton]%elem_of_app & Hi).
      * left. eauto.
      * right. by subst.
Qed.

(** In a freshly built index, the candidates of a query are the
    positions of the records whose keyword set holds a query word. *)
Lemma elem_of_candidates_built rnd commands self0 qw i :
  i ∈ candidate_indices_of (build_index ho rnd commands self0) qw
  ↔ ∃ cmd w, commands !! i = Some cmd ∧ w ∈ qw ∧ w ∈ keyword_set ho cmd.
Proof.
  rewrite elem_of_candidate_indices. simpl. split.
  - intros (w & Hw & (cmd & Hcmd & Hk)%word_index_index). eauto.
  - intros (cmd & w & Hcmd & Hw & Hk). exists w. split; [done|].
    apply word_index_index. eauto.
Qed.

Lemma command_keywords_built rnd commands self0 i :
  command_keywords (build_index ho rnd commands self0) !! i
  = keyword_set ho <$> commands !! i.
Proof. simpl. rewrite command_keywords_index. apply list_lookup_fmap. Qed.

End Index.

(** ** Candidates share a token with the query *)

Section Subset.

Context (ho : HashOrder) (collab : Collaborators).

Lemma coverage_pos qw cw w : w ∈ qw → w ∈ cw → 0 < coverage qw cw.
Proof.
  intros Hq Hc. unfold coverage.
  assert (Hm : (0 < size (matched_words qw cw))%nat).
  { assert (size (matched_words qw cw) ≠ 0%nat); [|lia].
    intros Hz%size_empty_iff. unfold matched_words in Hz. set_solver. }
  assert (Hl : (0 < length qw)%nat).
  { destruct qw; [by apply elem_of_nil in Hq|simpl; lia]. }
  apply lt_INR in Hm, Hl. simpl in Hm, Hl.
  apply Rdiv_lt_0_compat; lra.
Qed.

(** C5. After [build_index] on a catalog, every record that [search]
    returns for that catalog has a keyword set that holds one of the
    corrected query tokens, so its coverage is positive; a record
    whose keyword set shares no token with the corrected query is at
    no candidate position and is not returned. *)
Theorem search_results_share_token (rnd : Randn) (commands : list Command)
    (self0 : CommandSearcher) (query : string) (res : list (Command * R))
    (cmd : Command) (sc : R) :
  let self := build_index ho rnd commands self0 in
  search ho collab self query commands = Ok res → (cmd, sc) ∈ res →
  ∃ qw,
    query_words_of ho collab self query = Ok qw
    ∧ (∃ w, w ∈ qw ∧ w ∈ keyword_set ho cmd)
    ∧ 0 < coverage qw (keyword_set ho cmd)
    ∧ (∀ i c, commands !! i = Some c →
         (∀ w, w ∈ qw → w ∉ keyword_set ho c) →
         (i ∉ candidate_indices_of self qw) ∧ (∀ sc', (c, sc') ∉ res)).
Proof.
  intros self Hs Hin.
  destruct (search_returned _ _ _ _ _ _ _ _ Hs Hin)
    as (qw & idx & Hne & Hqw & Hcand & Hcmd & _).
  assert (Hshare : ∀ c sc', (c, sc') ∈ res → ∃ w, w ∈ qw ∧ w ∈ keyword_set ho c).
  { intros c sc' Hc.
    destruct (search_returned _ _ _ _ _ _ _ _ Hs Hc)
      as (qw' & i & _ & Hqw' & Hi & Hci & _).
    rewrite Hqw in Hqw'. injection Hqw' as <-.
    apply elem_of_candidates_built in Hi as (c' & w & Hc' & Hw & Hk).
    rewrite Hci in Hc'. injection Hc' as <-. eauto. }
  exists qw. destruct (Hshare _ _ Hin) as (w & Hw & Hk).
  split_and!; [done|eauto|by eapply coverage_pos|].
  intros i c Hc Hnone. split.
  - intros (c' & w' & Hc' & Hw' & Hk')%elem_of_candidates_built.
    rewrite Hc in Hc'. injection Hc' as <-. by eapply Hnone.
  - intros sc' (w' & Hw' & Hk')%Hshare. by eapply Hnone.
Qed.

End Subset.

(** ** Searching a freshly built index returns *)

Lemma length_lower s : String.length (PyStr.lower s) = String.length s.
Proof. induction s as [|c s IH]; simpl; [done|by rewrite IH]. Qed.

Lemma raw_token_nonempty w text : w ∈ raw_tokens text → w ≠ ""%string.
Proof.
  unfold raw_tokens. intros (x & -> & Hx)%list_elem_of_fmap.
  apply list_elem_of_filter in Hx as [Hlen _].
  intros Heq. rewrite <- length_lower, Heq in Hlen. simpl in Hlen. lia.
Qed.

Lemma forward_is_Ok m ids : n_rows m ≠ 0%nat → ∃ v, forward m ids = Ok v.
Proof.
  intros Hrows. destruct ids as [|idx ids]; [by eexists|].
  unfold forward.
  destruct (mapM_is_Ok (row_of m) (idx :: ids)) as [rows ->].
  { intros a _. unfold row_of. destruct (n_rows m); [done|by eexists]. }
  cbn [mbind result_bind]. by eexists.
Qed.

Section Returns.

Context (ho : HashOrder) (collab : Collaborators).

Lemma correct_spelling_is_Ok self word :
  all_words self ≠ [] → ∃ w, _correct_spelling collab self word = Ok w.
Proof.
  intros Hne.
  destruct (correct_spelling_nonempty collab self word Hne)
    as (best & score & k & _ & _ & _ & _ & ->).
  destruct (decide (word ∈ dom (word_to_idx self))); [by eexists|].
  destruct (SpellChecker_correction _ _ _); [|by eexists].
  destruct (decide _); by eexists.
Qed.

Lemma query_words_is_Ok self query :
  all_words self ≠ [] → ∃ qw, query_words_of ho collab self query = Ok qw.
Proof.
  intros Hne. unfold query_words_of.
  destruct (mapM_is_Ok (_correct_spelling collab self) (_tokenize ho query))
    as [ws ->]; [intros w _; by apply correct_spelling_is_Ok|].
  cbn [mbind result_bind]. by eexists.
Qed.

Lemma all_words_built_nonempty rnd commands self0 :
  vocabulary ho commands ≠ ∅ →
  all_words (build_index ho rnd commands self0) ≠ [].
Proof.
  intros Hv Hnil. apply Hv.
  rewrite <- (all_words_build_index ho rnd commands self0), Hnil. done.
Qed.

Lemma analyze_is_Ok rnd commands self0 qw cw :
  vocabulary ho commands ≠ ∅ →
  ∃ x, _analyze_with_lm ho (build_index ho rnd commands self0) qw cw = Ok x.
Proof.
  intros Hv. unfold _analyze_with_lm.
  set (self := build_index ho rnd commands self0).
  assert (Hrows : n_rows (MicroLanguageModel_init rnd (length (all_words self)) 16)
                  ≠ 0%nat).
  { simpl. intros Hz%length_zero_iff_nil.
    by apply (all_words_built_nonempty rnd commands self0). }
  change (lm self) with (Some (MicroLanguageModel_init rnd (length (all_words self)) 16)).
  destruct (forward_is_Ok _ (_get_word_indices self qw) Hrows) as [qf ->].
  destruct (forward_is_Ok _ (_get_word_indices self (iter_str ho cw)) Hrows) as [cf ->].
  cbn [mbind result_bind]. by eexists.
Qed.

(** Every candidate of a freshly built index gets a score, and the
    score exceeds the threshold. *)
Lemma candidate_score_built rnd commands self0 qw idx :
  idx ∈ candidate_indices_of (build_index ho rnd commands self0) qw →
  ∃ cmd sc,
    commands !! idx = Some cmd
    ∧ candidate_score ho (build_index ho rnd commands self0) qw idx = Ok sc
    ∧ 0.3 < sc.
Proof.
  intros (cmd & w & Hcmd & Hw & Hk)%elem_of_candidates_built.
  assert (Hv : vocabulary ho commands ≠ ∅).
  { intros Hv. apply elem_of_keyword_set in Hk.
    assert (w ∈ vocabulary ho commands); [|set_solver].
    apply elem_of_vocabulary. exists cmd. split; [|done].
    by eapply list_elem_of_lookup_2. }
  destruct (analyze_is_Ok rnd commands self0 qw (keyword_set ho cmd) Hv) as [x Hx].
  exists cmd. eexists. split; [done|].
  unfold candidate_score. rewrite command_keywords_built, Hcmd. simpl.
  rewrite Hx. cbn [mbind result_bind]. split; [done|].
  apply analyze_with_lm_bounds in Hx.
  pose proof (coverage_pos qw _ w Hw Hk).
  pose proof (density_bounds qw (keyword_set ho cmd)). lra.
Qed.

Lemma score_candidates_all self qw heap cands :
  (∀ idx, idx ∈ cands → ∃ sc, candidate_score ho self qw idx = Ok sc ∧ 0.3 < sc) →
  ∃ heap', score_candidates ho self qw heap cands = Ok heap'
           ∧ length heap' = (length heap + length cands)%nat.
Proof.
  revert heap. induction cands as [|idx cands IH]; intros heap Hall; simpl.
  - exists heap. split; [done|lia].
  - destruct (Hall idx) as (sc & Hsc & Hlt); [by left|].
    unfold score_candidate. rewrite Hsc. cbn [mbind result_bind].
    destruct (Rlt_dec 0.3 sc); [|done].
    destruct (IH (heappush heap (- sc, idx))) as (heap' & -> & Hlen).
    { intros i Hi. apply Hall. by right. }
    exists heap'. split; [done|]. rewrite Hlen, length_heappush. lia.
Qed.

(** With a non-empty vocabulary, [search] on the catalog the index was
    built from returns normally, and it returns every candidate up to
    three. *)
Lemma search_built_returns rnd commands self0 query :
  vocabulary ho commands ≠ ∅ →
  PyStr.strip query ≠ ""%string →
  ∃ qw res,
    query_words_of ho collab (build_index ho rnd commands self0) query = Ok qw
    ∧ search ho collab (build_index ho rnd commands self0) query commands = Ok res
    ∧ length res
      = (3 `min` size (candidate_indices_of (build_index ho rnd commands self0) qw))%nat.
Proof.
  intros Hv Hq. set (self := build_index ho rnd commands self0).
  destruct (query_words_is_Ok self query) as [qw Hqw].
  { by apply all_words_built_nonempty. }
  exists qw. unfold search. rewrite decide_False by done.
  rewrite Hqw. cbn [mbind result_bind].
  destruct qw as [|w qw].
  { eexists. split_and!; [done|done|]. done. }
  destruct (score_candidates_all self (w :: qw) []
              (iter_idx ho (candidate_indices_of self (w :: qw))))
    as (heap & Hheap & Hlen).
  { intros idx Hidx%elem_of_iter_idx.
    destruct (candidate_score_built rnd commands self0 _ _ Hidx)
      as (_ & sc & _ & Hsc & Hlt). eauto. }
  rewrite Hheap. cbn [mbind result_bind].
  destruct (mapM_is_Ok
    (fun '(score, idx) => cmd ← getitem commands idx; Ok (cmd, - score))
    (take 3 (sorted_by_key heap))) as [res Hres].
  { intros [s idx] Hin.
    assert (Hmem : (s, idx) ∈ heap).
    { rewrite <- (sorted_by_key_perm heap).
      apply elem_of_take in Hin as (j & Hj & _). by eapply list_elem_of_lookup_2. }
    destruct (score_candidates_elem _ _ _ _ _ _ _ Hheap Hmem)
      as [Hnil|(i & sc & Hi%elem_of_iter_idx & _ & _ & [= -> ->])].
    { by apply elem_of_nil in Hnil. }
    destruct (candidate_score_built rnd commands self0 _ _ Hi) as (cmd & _ & Hcmd & _).
    unfold getitem. rewrite Hcmd. cbn [mbind result_bind]. by eexists. }
  exists res. split_and!; [done|done|].
  apply mapM_Ok_Forall2 in Hres. rewrite <- (Forall2_length _ _ _ Hres).
  rewrite length_take. f_equal.
  etransitivity; [apply Permutation_length, sorted_by_key_perm|].
  etransitivity; [exact Hlen|]. simpl.
  apply Permutation_length, iter_idx_perm.
Qed.

End Returns.

(** ** Queries made of vocabulary words *)

Lemma mapM_fixed {A} (f : A → result A) (l : list A) :
  (∀ a, a ∈ l → f a = Ok a) → mapM f l = Ok l.
Proof.
  induction l as [|a l IH]; intros Hf; simpl; [done|].
  rewrite (Hf a) by by left. cbn [mbind result_bind].
  rewrite IH by (intros a' Ha'; apply Hf; by right). done.
Qed.

Lemma filter_all {A} (P : A → Prop) `{∀ a, Decision (P a)} (l : list A) :
  (∀ a, a ∈ l → P a) → filter P l = l.
Proof.
  induction l as [|a l IH]; intros HP; [done|].
  rewrite filter_cons_True by (apply HP; by left).
  f_equal. apply IH. intros a' Ha'. apply HP. by right.
Qed.

Section VocabularyQueries.

Context (ho : HashOrder) (collab : Collaborators).

Lemma correct_spelling_known self word :
  word ∈ dom (word_to_idx self) → _correct_spelling collab self word = Ok word.
Proof. intros Hw. unfold _correct_spelling. by rewrite decide_True. Qed.

(** A query whose tokens are all in the vocabulary is searched for
    as it is tokenised. *)
Lemma query_words_in_vocabulary rnd commands self0 query :
  (∀ w, w ∈ raw_tokens query → w ∈ vocabulary ho commands) →
  query_words_of ho collab (build_index ho rnd commands self0) query
  = Ok (_tokenize ho query).
Proof.
  intros Hin. unfold query_words_of.
  rewrite mapM_fixed.
  - cbn [mbind result_bind]. f_equal. apply filter_all.
    intros w Hw%elem_of_tokenize. by eapply raw_token_nonempty.
  - intros w Hw%elem_of_tokenize. apply correct_spelling_known.
    rewrite dom_word_to_idx_build_index. by apply Hin.
Qed.

End VocabularyQueries.

(** ** The default catalog *)

Example raw_tokens_default_2 :
  raw_tokens "simple ssh command ssh username@host Basic SSH connection command"
  = ["simple"; "ssh"; "command"; "ssh"; "username@host"; "basic"; "ssh";
     "connection"; "command"]%string.
Proof. reflexivity. Qed.

Example raw_tokens_default_3 :
  raw_tokens "scan network ports nmap -sV -T4 192.168.1.0/24 Scan network for open ports and services"
  = ["scan"; "network"; "ports"; "nmap"; "-sv"; "-t4"; "192.168.1.0/24"; "scan";
     "network"; "for"; "open"; "ports"; "and"; "services"]%string.
Proof. reflexivity. Qed.

Example raw_tokens_ssh_key : raw_tokens "ssh key" = ["ssh"; "key"]%string.
Proof. reflexivity. Qed.

Section DefaultCatalog.

Context (ho : HashOrder) (collab : Collaborators).

Lemma ssh_in_vocabulary : "ssh"%string ∈ vocabulary ho default_commands.
Proof.
  apply elem_of_vocabulary. exists ssh_key_command.
  split; [apply list_elem_of_here|].
  change (search_text _) with
    "ssh connect with private key ssh username@host -i id_rsa Connect SSH using private key authentication"%string.
  rewrite raw_tokens_default_1. apply list_elem_of_here.
Qed.

Lemma key_in_vocabulary : "key"%string ∈ vocabulary ho default_commands.
Proof.
  apply elem_of_vocabulary. exists ssh_key_command.
  split; [apply list_elem_of_here|].
  change (search_text _) with
    "ssh connect with private key ssh username@host -i id_rsa Connect SSH using private key authentication"%string.
  rewrite raw_tokens_default_1. do 4 apply list_elem_of_further. apply list_elem_of_here.
Qed.

(** The scenario of the default catalog: ["ssh key"] returns at
    least one pair. *)
Lemma search_ssh_key rnd self0 :
  ∃ r rs,
    search ho collab (build_index ho rnd default_commands self0) "ssh key"
           default_commands = Ok (r :: rs).
Proof.
  destruct (search_built_returns ho collab rnd default_commands self0 "ssh key")
    as (qw & res & Hqw & Hs & Hlen).
  { pose proof ssh_in_vocabulary. set_solver. }
  { done. }
  rewrite query_words_in_vocabulary in Hqw.
  2:{ intros w. rewrite raw_tokens_ssh_key.
      intros [->|[->|H]%elem_of_cons]%elem_of_cons;
        [apply ssh_in_vocabulary|apply key_in_vocabulary|by apply elem_of_nil in H]. }
  assert (qw = _tokenize ho "ssh key") as -> by congruence.
  assert (Hc : (0%nat ∈ candidate_indices_of
                  (build_index ho rnd default_commands self0) (_tokenize ho "ssh key"))).
  { apply elem_of_candidates_built. exists ssh_key_command, "ssh"%string.
    split_and!; [done| |].
    - apply elem_of_tokenize. rewrite raw_tokens_ssh_key. apply list_elem_of_here.
    - apply elem_of_keyword_set.
      change (search_text _) with
        "ssh connect with private key ssh username@host -i id_rsa Connect SSH using private key authentication"%string.
      rewrite raw_tokens_default_1. apply list_elem_of_here. }
  assert (Hsz : size (candidate_indices_of
                  (build_index ho rnd default_commands self0) (_tokenize ho "ssh key"))
                ≠ 0%nat).
  { intros Hz%size_empty_iff. set_solver. }
  destruct res as [|r rs]; [cbn [length] in Hlen; lia|]. eauto.
Qed.

End DefaultCatalog.

(** ** The laws on the default catalog *)

Lemma search_whitespace_only_witness :
  search elements_order silent_collaborators default_searcher "   " default_commands
  = Ok [].
Proof.
  apply (search_whitespace_only elements_order silent_collaborators
           default_searcher "   " default_commands).
  reflexivity.
Defined.

Lemma search_score_bounds_witness :
  ∃ res cmd sc,
    search elements_order silent_collaborators default_searcher "ssh key"
           default_commands = Ok res
    ∧ (cmd, sc) ∈ res ∧ 0.3 < sc <= 1.
Proof.
  destruct (search_ssh_key elements_order silent_collaborators zero_randn
              (CommandSearcher_init silent_collaborators)) as ([cmd sc] & rs & Hs).
  exists ((cmd, sc) :: rs), cmd, sc.
  split; [exact Hs|]. split; [apply list_elem_of_here|].
  apply (search_score_bounds elements_order silent_collaborators default_searcher
           "ssh key" default_commands ((cmd, sc) :: rs) cmd sc Hs).
  apply list_elem_of_here.
Defined.

Lemma search_top3_sorted_witness :
  ∃ res,
    search elements_order silent_collaborators default_searcher "ssh key"
           default_commands = Ok res
    ∧ res ≠ []
    ∧ (length res ≤ 3)%nat ∧ StronglySorted (fun a b => b.2 <= a.2) res.
Proof.
  destruct (search_ssh_key elements_order silent_collaborators zero_randn
              (CommandSearcher_init silent_collaborators)) as (r & rs & Hs).
  exists (r :: rs). split; [exact Hs|]. split; [discriminate|].
  apply (search_top3_sorted elements_order silent_collaborators default_searcher
           "ssh key" default_commands (r :: rs) Hs).
Defined.

Lemma search_results_share_token_witness :
  ∃ res cmd sc qw,
    search elements_order silent_collaborators default_searcher "ssh key"
           default_commands = Ok res
    ∧ (cmd, sc) ∈ res
    ∧ query_words_of elements_order silent_collaborators default_searcher "ssh key"
      = Ok qw
    ∧ (∃ w, w ∈ qw ∧ w ∈ keyword_set elements_order cmd)
    ∧ 0 < coverage qw (keyword_set elements_order cmd).
Proof.
  destruct (search_ssh_key elements_order silent_collaborators zero_randn
              (CommandSearcher_init silent_collaborators)) as ([cmd sc] & rs & Hs).
  destruct (search_results_share_token elements_order silent_collaborators zero_randn
              default_commands (CommandSearcher_init silent_collaborators)
              "ssh key" ((cmd, sc) :: rs) cmd sc Hs (list_elem_of_here _ _))
    as (qw & Hqw & Hw & Hcov & _).
  exists ((cmd, sc) :: rs), cmd, sc, qw.
  split; [exact Hs|]. split; [apply list_elem_of_here|]. auto.
Defined.

(** ** Two records with the same keyword set *)

Example raw_tokens_list_files : raw_tokens "list files" = ["list"; "files"]%string.
Proof. reflexivity. Qed.

Section Twins.

Context (ho : HashOrder) (collab : Collaborators).

Lemma twin_keyword_set cmd :
  cmd ∈ twin_commands → keyword_set ho cmd = list_to_set ["list"; "files"]%string.
Proof.
  intros Hcmd. rewrite keyword_set_raw.
  apply elem_of_cons in Hcmd as [->|Hcmd]; [reflexivity|].
  apply elem_of_cons in Hcmd as [->|Hcmd]; [reflexivity|].
  by apply elem_of_nil in Hcmd.
Qed.

Lemma twin_vocabulary w :
  w ∈ raw_tokens "list files" → w ∈ vocabulary ho twin_commands.
Proof.
  intros Hw. apply elem_of_vocabulary. eexists. split; [apply list_elem_of_here|].
  exact Hw.
Qed.

Lemma twin_candidates rnd self0 :
  candidate_indices_of (build_index ho rnd twin_commands self0)
    (_tokenize ho "list files") = {[0%nat; 1%nat]}.
Proof.
  apply set_eq. intros i. rewrite elem_of_candidates_built. split.
  - intros (cmd & w & Hcmd & _). destruct i as [|[|i]]; [set_solver|set_solver|done].
  - intros Hi. assert (is_Some (twin_commands !! i)) as [cmd Hcmd].
    { apply lookup_lt_is_Some. simpl.
      apply elem_of_union in Hi as [->%elem_of_singleton| ->%elem_of_singleton]; lia. }
    exists cmd, "list"%string. split_and!; [done| |].
    + apply elem_of_tokenize. rewrite raw_tokens_list_files. apply list_elem_of_here.
    + rewrite twin_keyword_set by by eapply list_elem_of_lookup_2. set_solver.
Qed.

Lemma twin_candidate_score rnd self0 qw i j :
  (i < 2)%nat → (j < 2)%nat →
  candidate_score ho (build_index ho rnd twin_commands self0) qw i
  = candidate_score ho (build_index ho rnd twin_commands self0) qw j.
Proof.
  intros Hi Hj. unfold candidate_score. rewrite !command_keywords_built.
  destruct (lookup_lt_is_Some_2 twin_commands i Hi) as [ci Hci].
  destruct (lookup_lt_is_Some_2 twin_commands j Hj) as [cj Hcj].
  rewrite Hci, Hcj. simpl.
  rewrite (twin_keyword_set ci) by by eapply list_elem_of_lookup_2.
  rewrite (twin_keyword_set cj) by by eapply list_elem_of_lookup_2.
  done.
Qed.

(** Both records are returned for ["list files"], with one and the
    same score. *)
Lemma twin_search rnd self0 :
  ∃ c1 c2 sc,
    search ho collab (build_index ho rnd twin_commands self0) "list files"
           twin_commands = Ok [(c1, sc); (c2, sc)].
Proof.
  set (self := build_index ho rnd twin_commands self0).
  destruct (search_built_returns ho collab rnd twin_commands self0 "list files")
    as (qw & res & Hqw & Hs & Hlen).
  { pose proof (twin_vocabulary "list"%string (list_elem_of_here _ _)). set_solver. }
  { done. }
  rewrite query_words_in_vocabulary in Hqw by apply twin_vocabulary.
  assert (qw = _tokenize ho "list files") as -> by congruence.
  rewrite twin_candidates in Hlen.
  assert (Hlen2 : length res = 2%nat) by (rewrite Hlen; reflexivity).
  destruct res as [|[c1 s1] [|[c2 s2] [|? ?]]]; try done.
  assert (Hscore : ∀ c s, (c, s) ∈ [(c1, s1); (c2, s2)] →
            candidate_score ho self (_tokenize ho "list files") 0 = Ok s).
  { intros c s Hin.
    destruct (search_returned _ _ _ _ _ _ _ _ Hs Hin)
      as (qw' & idx & _ & Hqw' & Hidx & _ & Hsc & _).
    rewrite query_words_in_vocabulary in Hqw' by apply twin_vocabulary.
    assert (qw' = _tokenize ho "list files") as -> by congruence.
    rewrite twin_candidates in Hidx.
    rewrite <- Hsc. apply twin_candidate_score; [lia|].
    apply elem_of_union in Hidx as [->%elem_of_singleton| ->%elem_of_singleton]; lia. }
  pose proof (Hscore c1 s1 (list_elem_of_here _ _)) as H1.
  pose proof (Hscore c2 s2 (list_elem_of_further _ _ _ (list_elem_of_here _ _))) as H2.
  rewrite H1 in H2. injection H2 as <-.
  exists c1, c2, s1. exact Hs.
Qed.

End Twins.

(** C4 as stated fails: for two records with the same keyword set the
    returned scores are equal, so the list is not in strictly descending
    order. *)
Lemma search_not_strictly_sorted :
  ¬ (∀ (ho : HashOrder) (collab : Collaborators) (self : CommandSearcher)
       (query : string) (commands : list Command) (res : list (Command * R)),
       search ho collab self query commands = Ok res →
       (length res ≤ 3)%nat ∧ Sorted (fun a b => b.2 < a.2) res).
Proof.
  intros H.
  destruct (twin_search elements_order silent_collaborators zero_randn
              (CommandSearcher_init silent_collaborators)) as (c1 & c2 & sc & Hs).
  destruct (H _ _ _ _ _ _ Hs) as [_ Hsorted].
  apply Sorted_inv in Hsorted as [_ Hhd].
  apply HdRel_inv in Hhd. simpl in Hhd. lra.
Qed.

(** ** Coverage *)

Example raw_tokens_network_netwrk :
  raw_tokens "network netwrk" = ["network"; "netwrk"]%string.
Proof. reflexivity. Qed.

(** When no two query tokens were corrected to the same word, the two
    readings of the coverage agree. *)
Lemma coverage_distinct_NoDup query_words cmd_words :
  NoDup query_words → coverage query_words cmd_words = coverage_distinct query_words cmd_words.
Proof.
  intros Hnd. unfold coverage, coverage_distinct, matched_words.
  by rewrite size_list_to_set.
Qed.

Section Coverage.

Context (ho : HashOrder) (collab : Collaborators).

Lemma network_in_vocabulary : "network"%string ∈ vocabulary ho default_commands.
Proof.
  apply elem_of_vocabulary. exists network_command.
  split; [do 2 apply list_elem_of_further; apply list_elem_of_here|].
  change (search_text _) with
    "scan network ports nmap -sV -T4 192.168.1.0/24 Scan network for open ports and services"%string.
  rewrite raw_tokens_default_3. apply list_elem_of_further, list_elem_of_here.
Qed.

Lemma netwrk_not_in_vocabulary : "netwrk"%string ∉ vocabulary ho default_commands.
Proof.
  rewrite elem_of_vocabulary. intros (cmd & Hcmd & Hw). revert Hw.
  repeat (apply elem_of_cons in Hcmd as [->|Hcmd]);
    [| | |by apply elem_of_nil in Hcmd].
  - change (search_text _) with
      "ssh connect with private key ssh username@host -i id_rsa Connect SSH using private key authentication"%string.
    rewrite raw_tokens_default_1. not_in_list.
  - change (search_text _) with
      "simple ssh command ssh username@host Basic SSH connection command"%string.
    rewrite raw_tokens_default_2. not_in_list.
  - change (search_text _) with
      "scan network ports nmap -sV -T4 192.168.1.0/24 Scan network for open ports and services"%string.
    rewrite raw_tokens_default_3. not_in_list.
Qed.

(** C6 (failing input). On the default catalog the query
    ["network netwrk"], whose second token the dictionary corrects to
    ["network"], is searched for as the two words
    ["network"; "network"]; for the record at position 2 the code's
    coverage is 1/2, while the one distinct query token is in the
    keyword set and the stated ratio is 1. *)
Theorem coverage_counts_duplicates (rnd : Randn) (self0 : CommandSearcher) :
  let self := build_index ho rnd default_commands self0 in
  let qw := ["network"; "network"]%string in
  SpellChecker_correction collab (spell_checker self) "netwrk" = Some "network"%string →
  query_words_of ho collab self "network netwrk" = Ok qw
  ∧ 2%nat ∈ candidate_indices_of self qw
  ∧ command_keywords self !! 2%nat = Some (keyword_set ho network_command)
  ∧ coverage qw (keyword_set ho network_command) = 1 / 2
  ∧ coverage_distinct qw (keyword_set ho network_command) = 1.
Proof.
  intros self qw Hcorr.
  assert (Hk : "network"%string ∈ keyword_set ho network_command).
  { apply elem_of_keyword_set.
    change (search_text _) with
      "scan network ports nmap -sV -T4 192.168.1.0/24 Scan network for open ports and services"%string.
    rewrite raw_tokens_default_3. apply list_elem_of_further, list_elem_of_here. }
  assert (Hnet : _correct_spelling collab self "network" = Ok "network"%string).
  { apply correct_spelling_known. subst self.
    rewrite dom_word_to_idx_build_index. apply network_in_vocabulary. }
  assert (Htypo : _correct_spelling collab self "netwrk" = Ok "network"%string).
  { unfold _correct_spelling. subst self.
    rewrite dom_word_to_idx_build_index.
    rewrite decide_False by apply netwrk_not_in_vocabulary.
    rewrite Hcorr. rewrite decide_True; [done|].
    split; [done|apply network_in_vocabulary]. }
  split_and!.
  - unfold query_words_of. rewrite tokenize_raw, raw_tokens_network_netwrk.
    assert (Hperm : ["network"; "netwrk"]%string
                    ≡ₚ iter_str ho (list_to_set ["network"; "netwrk"]%string)).
    { rewrite (iter_str_perm ho). symmetry. apply elements_list_to_set.
      apply NoDup_cons. split; [|apply NoDup_singleton].
      by intros ?%list_elem_of_singleton. }
    apply Permutation_length_2_inv in Hperm as [-> | ->]; simpl;
      rewrite Hnet, Htypo; reflexivity.
  - apply elem_of_candidates_built. exists network_command, "network"%string.
    split_and!; [done|apply list_elem_of_here|done].
  - subst self. by rewrite command_keywords_built.
  - unfold coverage, matched_words.
    replace (list_to_set qw ∩ keyword_set ho network_command)
      with ({["network"%string]} : gset string) by (subst qw; set_solver).
    rewrite size_singleton. simpl. lra.
  - unfold coverage_distinct.
    replace (list_to_set qw ∩ keyword_set ho network_command)
      with ({["network"%string]} : gset string) by (subst qw; set_solver).
    replace (list_to_set qw : gset string)
      with ({["network"%string]} : gset string) by (subst qw; set_solver).
    rewrite size_singleton. simpl. lra.
Qed.

End Coverage.

Lemma coverage_counts_duplicates_witness :
  coverage ["network"; "network"]%string (keyword_set elements_order network_command)
  = 1 / 2
  ∧ coverage_distinct ["network"; "network"]%string
      (keyword_set elements_order network_command) = 1.
Proof.
  destruct (coverage_counts_duplicates elements_order typo_collaborators zero_randn
              (CommandSearcher_init typo_collaborators)) as (_ & _ & _ & H1 & H2).
  - reflexivity.
  - by split.
Defined.

(** * Further properties *)

(** ** Formatting a command for display *)

Lemma split_sep_nonempty sep s : split_sep sep s ≠ [].
Proof.
  destruct s as [|c s]; simpl; [done|].
  destruct (Ascii.eqb c sep); [done|]. by destruct (split_sep sep s).
Qed.

Lemma join_cons sep piece pieces :
  pieces ≠ [] →
  join sep (piece :: pieces) = (piece ++ sep ++ join sep pieces)%string.
Proof. by destruct pieces. Qed.

Lemma join_split_sep sep s : join (String sep "") (split_sep sep s) = s.
Proof.
  induction s as [|c s IH]; simpl; [done|].
  destruct (Ascii.eqb c sep) eqn:Hc.
  - apply Ascii.eqb_eq in Hc as ->.
    rewrite join_cons by apply split_sep_nonempty. simpl. by rewrite IH.
  - pose proof (split_sep_nonempty sep s) as Hne.
    destruct (split_sep sep s) as [|piece pieces]; [done|].
    destruct pieces as [|piece' pieces]; rewrite <- IH; reflexivity.
Qed.

Lemma split_sep_no_sep sep s : PyStr.mem sep s = false → split_sep sep s = [s].
Proof.
  induction s as [|c s IH]; simpl; [done|].
  rewrite Ascii.eqb_sym. destruct (Ascii.eqb c sep); [done|].
  intros Hs. by rewrite IH.
Qed.

Lemma split_sep_app sep piece s :
  PyStr.mem sep piece = false →
  split_sep sep (piece ++ String sep "" ++ s) = piece :: split_sep sep s.
Proof.
  induction piece as [|c piece IH]; simpl.
  - by rewrite Ascii.eqb_refl.
  - rewrite Ascii.eqb_sym. destruct (Ascii.eqb c sep); [done|].
    intros Hp. by rewrite IH.
Qed.

Lemma split_sep_join sep pieces :
  pieces ≠ [] → Forall (fun piece => PyStr.mem sep piece = false) pieces →
  split_sep sep (join (String sep "") pieces) = pieces.
Proof.
  induction pieces as [|piece pieces IH]; [done|].
  intros _ [Hp Hps]%Forall_cons.
  destruct pieces as [|piece' pieces]; [by apply split_sep_no_sep|].
  rewrite join_cons by done.
  rewrite split_sep_app by done. by rewrite IH.
Qed.

Lemma mem_lstrip c s :
  PyStr.mem c s = false → PyStr.mem c (PyStr.lstrip_by PyStr.isspace s) = false.
Proof.
  induction s as [|d s IH]; simpl; [done|].
  destruct (Ascii.eqb c d) eqn:Hcd; [done|].
  intros Hs. destruct (PyStr.isspace d); [by apply IH|].
  simpl. by rewrite Hcd.
Qed.

Lemma split_sep_pieces sep s :
  Forall (fun piece => PyStr.mem sep piece = false) (split_sep sep s).
Proof.
  induction s as [|c s IH]; simpl; [by repeat constructor|].
  destruct (Ascii.eqb c sep) eqn:Hc; [by constructor|].
  destruct (split_sep sep s) as [|piece pieces]; simpl.
  - repeat constructor. simpl. by rewrite Ascii.eqb_sym, Hc.
  - apply Forall_cons in IH as [Hp Hps]. constructor; [|done].
    simpl. by rewrite Ascii.eqb_sym, Hc.
Qed.

Lemma lstrip_idem s :
  PyStr.lstrip_by PyStr.isspace (PyStr.lstrip_by PyStr.isspace s)
  = PyStr.lstrip_by PyStr.isspace s.
Proof.
  induction s as [|c s IH]; simpl; [done|].
  destruct (PyStr.isspace c) eqn:Hc; [done|]. simpl. by rewrite Hc.
Qed.

Lemma lstrip_indent s :
  PyStr.lstrip_by PyStr.isspace ("    " ++ s) = PyStr.lstrip_by PyStr.isspace s.
Proof. reflexivity. Qed.

Lemma format_line_idem i line : format_line i (format_line i line) = format_line i line.
Proof.
  destruct i; [done|]. unfold format_line.
  by rewrite lstrip_indent, lstrip_idem.
Qed.

Lemma format_line_no_newline i line :
  PyStr.mem newline line = false → PyStr.mem newline (format_line i line) = false.
Proof. destruct i; simpl; [done|]. apply mem_lstrip. Qed.

Lemma format_lines_no_newline lines :
  Forall (fun line => PyStr.mem newline line = false) lines →
  Forall (fun line => PyStr.mem newline line = false) (imap format_line lines).
Proof.
  intros Hl. apply Forall_forall. intros x (i & line & -> & Hi)%elem_of_lookup_imap.
  apply format_line_no_newline.
  rewrite Forall_forall in Hl. apply Hl. by eapply list_elem_of_lookup_2.
Qed.

Lemma format_command_unfold command_ :
  _format_command command_ =
  if decide (length (split_sep newline command_) = 1%nat) then command_
  else join (String newline "") (imap format_line (split_sep newline command_)).
Proof. reflexivity. Qed.

(** X1. [_format_command] keeps the number of lines and the first line,
    and replaces the leading whitespace of every later line by four
    spaces; a command of one line is returned as it is. *)
Theorem format_command_lines (command_ : string) :
  split_sep newline (_format_command command_)
  = imap format_line (split_sep newline command_)
  ∧ (length (split_sep newline command_) = 1%nat →
     _format_command command_ = command_).
Proof.
  rewrite format_command_unfold.
  destruct (decide (length (split_sep newline command_) = 1%nat)) as [H1|Hn].
  - split; [|done].
    destruct (split_sep newline command_) as [|l [|? ?]]; done.
  - split; [|done]. apply split_sep_join.
    + pose proof (split_sep_nonempty newline command_).
      destruct (split_sep newline command_); done.
    + apply format_lines_no_newline, split_sep_pieces.
Qed.

Lemma format_command_lines_witness :
  _format_command "nmap -sV" = "nmap -sV"%string.
Proof. by apply (format_command_lines "nmap -sV"). Defined.

Lemma imap_format_line_idem lines :
  imap format_line (imap format_line lines) = imap format_line lines.
Proof.
  apply list_eq. intros i. rewrite !list_lookup_imap.
  destruct (lines !! i) as [line|]; simpl; [|done].
  by rewrite format_line_idem.
Qed.

(** X2. Formatting is idempotent: a command that was formatted is not
    changed by formatting it again. *)
Theorem format_command_idempotent (command_ : string) :
  _format_command (_format_command command_) = _format_command command_.
Proof.
  rewrite (format_command_unfold command_).
  destruct (decide (length (split_sep newline command_) = 1%nat)) as [H1|Hn].
  - rewrite format_command_unfold. by rewrite decide_True.
  - set (lines := split_sep newline command_) in *.
    assert (Hsplit : split_sep newline
                       (join (String newline "") (imap format_line lines))
                     = imap format_line lines).
    { apply split_sep_join.
      - pose proof (split_sep_nonempty newline command_). fold lines in H.
        by destruct lines.
      - apply format_lines_no_newline, split_sep_pieces. }
    rewrite format_command_unfold, Hsplit, length_imap.
    rewrite decide_False by done. by rewrite imap_format_line_idem.
Qed.

Example format_command_ex :
  _format_command (String.append "for i in 1 2; do" (String newline "  echo $i"))
  = String.append "for i in 1 2; do" (String newline "    echo $i").
Proof. reflexivity. Qed.

(** ** The commands table *)

Lemma insert_row_Some db intent_ command_ description_ db' :
  insert_row db intent_ command_ description_ = Some db' ↔
  (command_ ∉ map command (table db))
  ∧ (sequence db < max_rowid)%Z
  ∧ db' = {| table := (table db ++ [{| id := (sequence db + 1)%Z; intent := intent_;
                                       command := command_;
                                       description := description_ |}])%list;
             sequence := (sequence db + 1)%Z |}.
Proof.
  unfold insert_row. destruct (decide _) as [Hin|Hnin].
  - split; [done|]. by intros [? _].
  - destruct (decide _) as [Hmax|Hmax].
    + split; [done|]. intros (_ & ? & _). lia.
    + split; [|by intros (_ & _ & ->)].
      intros [= <-]. split; [done|]. split; [lia|done].
Qed.

Lemma delete_row_Some db command_id db' rowcount :
  delete_row db command_id = Some (db', rowcount) →
  table db' = filter (fun row => id row ≠ command_id) (table db)
  ∧ sequence db' = sequence db.
Proof.
  unfold delete_row. destruct (decide _); [|done]. by intros [= <- _].
Qed.

Lemma insert_row_well_formed db intent_ command_ description_ db' :
  well_formed db → insert_row db intent_ command_ description_ = Some db' →
  well_formed db'.
Proof.
  intros (Hid & Hcmd & Hseq) (Hnin & _ & ->)%insert_row_Some.
  unfold well_formed. simpl. rewrite !map_app. simpl. split_and!.
  - apply NoDup_app. split_and!; [done| |apply NoDup_singleton].
    intros z Hz ->%list_elem_of_singleton.
    apply list_elem_of_fmap in Hz as (row & Hrow & Hin).
    rewrite Forall_forall in Hseq. specialize (Hseq row Hin). lia.
  - apply NoDup_app. split_and!; [done| |apply NoDup_singleton].
    by intros c Hc ->%list_elem_of_singleton.
  - apply Forall_app. split.
    + eapply Forall_impl; [exact Hseq|]. simpl. intros row. lia.
    + repeat constructor. simpl. lia.
Qed.

Lemma NoDup_map_filter {A B} (f : A → B) (P : A → Prop) `{∀ x, Decision (P x)}
    (l : list A) :
  NoDup (map f l) → NoDup (map f (filter P l)).
Proof.
  induction l as [|a l IH]; [done|]. simpl.
  intros [Hnin Hl]%NoDup_cons. rewrite filter_cons.
  destruct (decide (P a)); [|by apply IH]. simpl.
  apply NoDup_cons. split; [|by apply IH].
  intros (b & Hb & Hin)%list_elem_of_fmap. apply Hnin.
  apply list_elem_of_fmap. exists b. split; [done|].
  by apply list_elem_of_filter in Hin as [_ ?].
Qed.

Lemma delete_row_well_formed db command_id db' rowcount :
  well_formed db → delete_row db command_id = Some (db', rowcount) →
  well_formed db'.
Proof.
  intros (Hid & Hcmd & Hseq) [Ht Hs]%delete_row_Some.
  unfold well_formed. rewrite Ht, Hs. split_and!.
  - by apply NoDup_map_filter.
  - by apply NoDup_map_filter.
  - apply Forall_forall. intros row [_ Hrow]%list_elem_of_filter.
    rewrite Forall_forall in Hseq. by apply Hseq.
Qed.

(** One statement that takes effect: the rows with an id up to the last
    one handed out before are rows the table had before. *)
Lemma execute_inv db st db' :
  well_formed db → execute db st = Some db' →
  well_formed db'
  ∧ (sequence db ≤ sequence db')%Z
  ∧ ∀ row, row ∈ table db' → (id row ≤ sequence db)%Z → row ∈ table db.
Proof.
  intros Hwf Hex. destruct st as [i c d|cid]; simpl in Hex.
  - split; [by eapply insert_row_well_formed|].
    apply insert_row_Some in Hex as (_ & _ & ->). simpl. split; [lia|].
    intros row [Hrow|Hrow%list_elem_of_singleton]%elem_of_app Hid; [done|].
    subst row. simpl in Hid. lia.
  - destruct (delete_row db cid) as [[db1 n]|] eqn:Hdel; [|done].
    injection Hex as ->. split; [by eapply delete_row_well_formed|].
    apply delete_row_Some in Hdel as [Ht Hs]. rewrite Ht, Hs. split; [lia|].
    by intros row [_ Hrow]%list_elem_of_filter _.
Qed.

Lemma run_statements_cons db st statements :
  run_statements db (st :: statements)
  = run_statements (match execute db st with Some db' => db' | None => db end)
                   statements.
Proof. reflexivity. Qed.

Lemma run_statements_inv db statements :
  well_formed db →
  well_formed (run_statements db statements)
  ∧ (sequence db ≤ sequence (run_statements db statements))%Z
  ∧ ∀ row, row ∈ table (run_statements db statements) →
           (id row ≤ sequence db)%Z → row ∈ table db.
Proof.
  revert db. induction statements as [|st statements IH]; intros db Hwf.
  - simpl. split; [done|]. split; [lia|done].
  - rewrite run_statements_cons.
    destruct (execute db st) as [db1|] eqn:Hex; [|by apply IH].
    destruct (execute_inv db st db1 Hwf Hex) as (Hwf1 & Hs1 & Hold1).
    destruct (IH db1 Hwf1) as (Hwf' & Hs' & Hold').
    split; [done|]. split; [lia|].
    intros row Hrow Hid. apply Hold1; [|done]. apply Hold'; [done|lia].
Qed.

(** X3. Whatever statements are executed on a table that has pairwise
    distinct ids, pairwise distinct command texts and no id above the
    last one handed out, the table keeps these three properties, the
    last id handed out never decreases, and every row is a row the table
    had at the start or has an id above the last one handed out at the
    start: a new row gets a larger id than every row before it, deleted
    or not. *)
Theorem rowids_never_reused (db : Database) (statements : list statement) :
  well_formed db →
  well_formed (run_statements db statements)
  ∧ (sequence db ≤ sequence (run_statements db statements))%Z
  ∧ ∀ row, row ∈ table (run_statements db statements) →
           row ∈ table db
           ∨ (sequence db < id row ≤ sequence (run_statements db statements))%Z.
Proof.
  intros Hwf.
  destruct (run_statements_inv db statements Hwf) as (Hwf' & Hseq & Hold).
  split; [done|]. split; [done|].
  intros row Hrow.
  destruct (decide (id row ≤ sequence db)%Z) as [Hle|Hgt]; [left; by apply Hold|].
  right. destruct Hwf' as (_ & _ & Hmax).
  rewrite Forall_forall in Hmax. specialize (Hmax row Hrow). lia.
Qed.

Lemma well_formed_new_database : well_formed new_database.
Proof. split_and!; constructor. Qed.

Lemma rowids_never_reused_witness :
  table (run_statements new_database
           [INSERT "list" "ls" ""; DELETE 1; INSERT "list" "ls" ""]%string)
  = [{| id := 2; intent := "list"; command := "ls"; description := "" |}]%string
  ∧ well_formed
      (run_statements new_database
         [INSERT "list" "ls" ""; DELETE 1; INSERT "list" "ls" ""]%string).
Proof.
  split; [reflexivity|].
  apply (rowids_never_reused new_database
           [INSERT "list" "ls" ""; DELETE 1; INSERT "list" "ls" ""]%string
           well_formed_new_database).
Defined.

(** ** A searcher without vocabulary *)

Lemma all_space_lstrip_empty s :
  PyStr.lstrip_by PyStr.isspace s = ""%string → all_space s = true.
Proof.
  induction s as [|c s IH]; simpl; [done|].
  destruct (PyStr.isspace c); [by intros ?%IH|done].
Qed.

Lemma rev_app_length s1 s2 :
  String.length (String.rev_app s1 s2) = (String.length s1 + String.length s2)%nat.
Proof.
  revert s2. induction s1 as [|c s1 IH]; intros s2; simpl; [done|].
  rewrite IH. simpl. lia.
Qed.

Lemma rev_empty s : String.rev s = ""%string → s = ""%string.
Proof.
  intros Hs. assert (Hl : String.length (String.rev s) = 0%nat) by by rewrite Hs.
  unfold String.rev in Hl. rewrite rev_app_length in Hl.
  destruct s; [done|simpl in Hl; lia].
Qed.

Lemma strip_empty_all_space s : PyStr.strip s = ""%string → all_space s = true.
Proof.
  unfold PyStr.strip, PyStr.strip_by, PyStr.rstrip_by.
  intros Hs%rev_empty.
  apply all_space_lstrip_empty in Hs.
  set (t := PyStr.lstrip_by PyStr.isspace s) in *.
  assert (Ht : all_space t = true).
  { assert (Hgen : ∀ a b, all_space (String.rev_app a b) = true → all_space a = true).
    { induction a as [|c a IH]; intros b; simpl; [done|].
      intros Hab. pose proof (IH _ Hab) as Ha. rewrite Ha.
      assert (Hb : ∀ a b, all_space (String.rev_app a b) = true → all_space b = true).
      { clear. induction a as [|c a IH]; intros b; simpl; [done|].
        intros Hab%IH. simpl in Hab. by apply andb_prop in Hab as [_ ?]. }
      apply Hb in Hab. simpl in Hab. apply andb_prop in Hab as [-> _]. done. }
    by apply (Hgen t ""%string). }
  clear Hs. subst t. induction s as [|c s IH]; simpl in *; [done|].
  destruct (PyStr.isspace c) eqn:Hc; [by apply IH|].
  simpl in Ht. by rewrite Hc in Ht.
Qed.

Lemma split_all_space s : all_space s = true → PyStr.split s = [].
Proof.
  unfold PyStr.split. induction s as [|c s IH]; simpl; [done|].
  intros [Hc Hs]%andb_prop. rewrite Hc. by apply IH.
Qed.

Lemma raw_tokens_all_space s : all_space s = true → raw_tokens s = [].
Proof. intros Hs. unfold raw_tokens. by rewrite split_all_space. Qed.

Lemma mapM_raise {A B} (f : A → result B) (l : list A) (e : exception) :
  l ≠ [] → (∀ a, a ∈ l → f a = Raise e) → mapM f l = Raise e.
Proof.
  destruct l as [|a l]; [done|]. intros _ Hf. simpl.
  by rewrite (Hf a) by by left.
Qed.

Section NoVocabulary.

Context (ho : HashOrder) (collab : Collaborators).

Lemma tokenize_nil text : _tokenize ho text = [] ↔ raw_tokens text = [].
Proof.
  rewrite tokenize_raw. split.
  - intros Hnil. destruct (raw_tokens text) as [|w ws]; [done|].
    assert (Hw : w ∈ iter_str ho (list_to_set (w :: ws))).
    { apply elem_of_iter_str. set_solver. }
    rewrite Hnil in Hw. by apply elem_of_nil in Hw.
  - intros ->. apply iter_str_empty.
Qed.

Lemma search_without_vocabulary_eq (self : CommandSearcher) (query : string)
    (commands : list Command) :
  all_words self = [] → word_to_idx self = ∅ →
  search ho collab self query commands
  = if decide (raw_tokens query = []) then Ok [] else Raise TypeError.
Proof.
  intros Hall Hidx. unfold search.
  destruct (decide (PyStr.strip query = ""%string)) as [Hs|Hs].
  - apply strip_empty_all_space, raw_tokens_all_space in Hs.
    by rewrite decide_True.
  - unfold query_words_of.
    destruct (decide (raw_tokens query = [])) as [Hr|Hr].
    + apply tokenize_nil in Hr. by rewrite Hr.
    + rewrite (mapM_raise _ _ TypeError); [done|by rewrite tokenize_nil|].
      intros w _. by apply correct_spelling_empty.
Qed.

(** X5. A searcher that was never built, or was built from a catalog
    without any token, returns the empty list for a query without
    tokens and raises [TypeError] for every query that has a token,
    whatever catalog is handed to [search]. *)
Theorem search_without_vocabulary (query : string) (commands : list Command) :
  search ho collab (CommandSearcher_init collab) query commands
  = (if decide (raw_tokens query = []) then Ok [] else Raise TypeError)
  ∧ (∀ rnd catalog self0,
       vocabulary ho catalog = ∅ →
       search ho collab (build_index ho rnd catalog self0) query commands
       = if decide (raw_tokens query = []) then Ok [] else Raise TypeError).
Proof.
  split.
  - by apply search_without_vocabulary_eq.
  - intros rnd catalog self0 Hv. apply search_without_vocabulary_eq; simpl.
    + rewrite Hv. apply iter_str_empty.
    + by rewrite Hv, iter_str_empty.
Qed.

End NoVocabulary.

(** A catalog whose words all have at most two characters. *)
Lemma search_without_vocabulary_witness :
  search elements_order silent_collaborators
         (build_index elements_order zero_randn
            [{| id := 1; intent := "ls"; command := "ls"; description := "" |}]
            (CommandSearcher_init silent_collaborators))
         "ssh key" []
  = Raise TypeError.
Proof.
  apply (search_without_vocabulary elements_order silent_collaborators "ssh key" []).
  reflexivity.
Defined.

(** ** The bot *)

Section BotLaws.

Context (ho : HashOrder) (collab : Collaborators).

Lemma load_commands_in_sync (rnd : Randn) (self : TinyDuckieBot) :
  in_sync ho (Bot._load_commands ho rnd self).
Proof. exists rnd, (searcher self). reflexivity. Qed.

(** X9. Once the [DELETE] of [delete_command] has taken effect on a row
    of the table, no later search of the bot returns a record with the
    deleted id, whatever statements were executed in between and
    whatever the state of the index, rebuilt or not: the records a
    search returns are rows of the table as it is then, and the id is
    not handed out again. *)
Theorem search_after_delete (db : Database) (command_id : Z) (db' : Database)
    (rowcount : nat) (statements : list statement) (index : CommandSearcher)
    (query : string) (res : list (Command * R)) (cmd : Command) (sc : R) :
  well_formed db →
  command_id ∈ map id (table db) →
  delete_row db command_id = Some (db', rowcount) →
  Bot.search ho collab
    {| db_file := run_statements db' statements; searcher := index |} query
  = Ok res →
  (cmd, sc) ∈ res →
  id cmd ≠ command_id.
Proof.
  intros Hwf Hid Hdel Hs Hin. unfold Bot.search in Hs. cbn [db_file searcher] in Hs.
  destruct (search_returned _ _ _ _ _ _ _ _ Hs Hin)
    as (_ & idx & _ & _ & _ & Hcmd & _).
  apply list_elem_of_lookup_2 in Hcmd.
  pose proof (delete_row_well_formed _ _ _ _ Hwf Hdel) as Hwf'.
  destruct (run_statements_inv db' statements Hwf') as (_ & _ & Hold).
  destruct (delete_row_Some _ _ _ _ Hdel) as [Ht Hseq].
  intros Heq.
  assert (Hle : (id cmd ≤ sequence db')%Z).
  { rewrite Heq, Hseq. destruct Hwf as (_ & _ & Hmax).
    apply list_elem_of_fmap in Hid as (row & -> & Hrow).
    rewrite Forall_forall in Hmax. by apply Hmax. }
  specialize (Hold cmd Hcmd Hle). rewrite Ht in Hold.
  by apply list_elem_of_filter in Hold as [? _].
Qed.

(** X10. While the index is in step with the table, the only way the
    bot's search fails is the [TypeError] of a searcher without
    vocabulary: no table position is out of range and the model is
    always there. *)
Theorem bot_search_failure (self : TinyDuckieBot) (query : string) (e : exception) :
  in_sync ho self →
  Bot.search ho collab self query = Raise e →
  e = TypeError ∧ vocabulary ho (table (db_file self)) = ∅.
Proof.
  intros (rnd & self0 & Hsync). unfold Bot.search. rewrite Hsync.
  destruct (decide (vocabulary ho (table (db_file self)) = ∅)) as [Hv|Hv].
  - rewrite (search_without_vocabulary_eq ho collab).
    + destruct (decide _); [done|]. by intros [= <-].
    + simpl. rewrite Hv. apply iter_str_empty.
    + simpl. rewrite Hv, iter_str_empty. done.
  - destruct (decide (PyStr.strip query = ""%string)) as [Hq|Hq].
    + unfold search. by rewrite decide_True.
    + destruct (search_built_returns ho collab rnd _ self0 query Hv Hq)
        as (qw & res & _ & -> & _). done.
Qed.

End BotLaws.

(** ** Searches that find something *)

Section Finds.

Context (ho : HashOrder) (collab : Collaborators).

(** A query of vocabulary words, one of them a keyword of some record,
    has a result. *)
Lemma search_finds rnd commands self0 query i cmd w :
  (∀ w', w' ∈ raw_tokens query → w' ∈ vocabulary ho commands) →
  commands !! i = Some cmd → w ∈ raw_tokens query → w ∈ keyword_set ho cmd →
  ∃ r rs,
    search ho collab (build_index ho rnd commands self0) query commands
    = Ok (r :: rs).
Proof.
  intros Hvoc Hcmd Hw Hk.
  assert (Hv : vocabulary ho commands ≠ ∅).
  { intros Hv. specialize (Hvoc w Hw). rewrite Hv in Hvoc. set_solver. }
  assert (Hq : PyStr.strip query ≠ ""%string).
  { intros Hs%strip_empty_all_space%raw_tokens_all_space.
    rewrite Hs in Hw. by apply elem_of_nil in Hw. }
  destruct (search_built_returns ho collab rnd commands self0 query Hv Hq)
    as (qw & res & Hqw & Hs & Hlen).
  rewrite query_words_in_vocabulary in Hqw by done.
  assert (qw = _tokenize ho query) as -> by congruence.
  assert (Hc : i ∈ candidate_indices_of (build_index ho rnd commands self0)
                     (_tokenize ho query)).
  { apply elem_of_candidates_built. exists cmd, w.
    split_and!; [done|by apply elem_of_tokenize|done]. }
  assert (Hsz : size (candidate_indices_of (build_index ho rnd commands self0)
                        (_tokenize ho query)) ≠ 0%nat).
  { intros Hz%size_empty_iff. set_solver. }
  destruct res as [|r rs]; [cbn [length] in Hlen; lia|]. eauto.
Qed.

End Finds.

Lemma well_formed_default_database :
  well_formed {| table := default_commands; sequence := 3 |}.
Proof.
  split_and!; cbn [table sequence default_commands map].
  - repeat (apply NoDup_cons; split; [not_in_list|]). apply NoDup_nil_2.
  - repeat (apply NoDup_cons; split; [not_in_list|]). apply NoDup_nil_2.
  - repeat constructor; simpl; lia.
Qed.

Lemma search_after_delete_witness :
  ∃ res cmd sc,
    Bot.search elements_order silent_collaborators
      {| db_file := {| table := [ssh_key_command; network_command]; sequence := 3 |};
         searcher := build_index elements_order zero_randn
                       [ssh_key_command; network_command] default_searcher |}
      "ssh key"
    = Ok res
    ∧ (cmd, sc) ∈ res ∧ id cmd ≠ 2%Z.
Proof.
  destruct (search_finds elements_order silent_collaborators zero_randn
              [ssh_key_command; network_command] default_searcher "ssh key"
              0 ssh_key_command "ssh"%string) as ([cmd sc] & rs & Hs).
  { intros w' Hw'. apply elem_of_vocabulary. exists ssh_key_command.
    split; [apply list_elem_of_here|]. revert Hw'.
    rewrite raw_tokens_ssh_key.
    change (search_text _) with
      "ssh connect with private key ssh username@host -i id_rsa Connect SSH using private key authentication"%string.
    rewrite raw_tokens_default_1.
    intros [->|[->|H]%elem_of_cons]%elem_of_cons;
      [apply list_elem_of_here
      |do 4 apply list_elem_of_further; apply list_elem_of_here
      |by apply elem_of_nil in H]. }
  { done. }
  { rewrite raw_tokens_ssh_key. apply list_elem_of_here. }
  { apply elem_of_keyword_set.
    change (search_text _) with
      "ssh connect with private key ssh username@host -i id_rsa Connect SSH using private key authentication"%string.
    rewrite raw_tokens_default_1. apply list_elem_of_here. }
  exists ((cmd, sc) :: rs), cmd, sc. split; [exact Hs|].
  split; [apply list_elem_of_here|].
  apply (search_after_delete elements_order silent_collaborators
           {| table := default_commands; sequence := 3 |} 2
           {| table := [ssh_key_command; network_command]; sequence := 3 |} 1 []
           (build_index elements_order zero_randn
              [ssh_key_command; network_command] default_searcher)
           "ssh key" ((cmd, sc) :: rs) cmd sc).
  - exact well_formed_default_database.
  - do 1 apply list_elem_of_further. apply list_elem_of_here.
  - reflexivity.
  - exact Hs.
  - apply list_elem_of_here.
Defined.

Lemma in_sync_emptied_bot : in_sync elements_order emptied_bot.
Proof. exists zero_randn, default_searcher. reflexivity. Qed.

Lemma bot_search_failure_witness :
  Bot.search elements_order silent_collaborators emptied_bot "hello"
  = Raise TypeError
  ∧ vocabulary elements_order (table (db_file emptied_bot)) = ∅.
Proof.
  assert (Hs : Bot.search elements_order silent_collaborators emptied_bot "hello"
               = Raise TypeError).
  { unfold Bot.search.
    by rewrite (search_without_vocabulary_eq elements_order silent_collaborators). }
  split; [exact Hs|].
  apply (bot_search_failure elements_order silent_collaborators emptied_bot
           "hello" TypeError in_sync_emptied_bot Hs).
Defined.

(** ** Tokens and letter case *)

Lemma isspace_lower_char c : PyStr.isspace (PyStr.lower_char c) = PyStr.isspace c.
Proof. destruct c as [[] [] [] [] [] [] [] []]; reflexivity. Qed.

Lemma punctuation_lower_char c :
  PyStr.mem (PyStr.lower_char c) punctuation = PyStr.mem c punctuation.
Proof. destruct c as [[] [] [] [] [] [] [] []]; reflexivity. Qed.

Lemma lower_rev_app a b :
  PyStr.lower (String.rev_app a b) = String.rev_app (PyStr.lower a) (PyStr.lower b).
Proof.
  revert b. induction a as [|c a IH]; intros b; simpl; [done|]. by rewrite IH.
Qed.

Lemma lower_rev s : PyStr.lower (String.rev s) = String.rev (PyStr.lower s).
Proof. apply lower_rev_app. Qed.

Lemma lower_lstrip_by p s :
  (∀ c, p (PyStr.lower_char c) = p c) →
  PyStr.lstrip_by p (PyStr.lower s) = PyStr.lower (PyStr.lstrip_by p s).
Proof.
  intros Hp. induction s as [|c s IH]; simpl; [done|].
  rewrite Hp. by destruct (p c).
Qed.

Lemma lower_strip_by p s :
  (∀ c, p (PyStr.lower_char c) = p c) →
  PyStr.strip_by p (PyStr.lower s) = PyStr.lower (PyStr.strip_by p s).
Proof.
  intros Hp. unfold PyStr.strip_by, PyStr.rstrip_by.
  by rewrite lower_lstrip_by, <- lower_rev, lower_lstrip_by, lower_rev.
Qed.

Lemma lower_split_go cur s :
  PyStr.split_go (PyStr.lower cur) (PyStr.lower s)
  = map PyStr.lower (PyStr.split_go cur s).
Proof.
  revert cur. induction s as [|c s IH]; intros cur; simpl.
  - destruct cur; simpl; [done|]. f_equal.
    change (String (PyStr.lower_char a) (PyStr.lower cur)) with (PyStr.lower (String a cur)).
    by rewrite lower_rev.
  - rewrite isspace_lower_char. destruct (PyStr.isspace c).
    + destruct cur; simpl; [apply (IH ""%string)|].
      f_equal; [|apply (IH ""%string)].
      change (String (PyStr.lower_char a) (PyStr.lower cur)) with (PyStr.lower (String a cur)).
      by rewrite lower_rev.
    + apply (IH (String c cur)).
Qed.

Lemma lower_split s : PyStr.split (PyStr.lower s) = map PyStr.lower (PyStr.split s).
Proof. apply (lower_split_go ""%string). Qed.

Lemma raw_tokens_lower text : raw_tokens (PyStr.lower text) = raw_tokens text.
Proof.
  unfold raw_tokens. rewrite lower_split.
  induction (PyStr.split text) as [|w ws IH]; [done|].
  simpl map at 2. rewrite !filter_cons.
  unfold PyStr.strip_chars in *.
  rewrite (lower_strip_by _ w) by apply punctuation_lower_char.
  rewrite length_lower.
  destruct (decide (2 < String.length _)%nat); simpl; [|exact IH].
  rewrite (lower_strip_by _ w) by apply punctuation_lower_char.
  rewrite lower_idem. f_equal. exact IH.
Qed.

Lemma lower_empty s : PyStr.lower s = ""%string ↔ s = ""%string.
Proof. by destruct s. Qed.

Section CaseInsensitive.

Context (ho : HashOrder) (collab : Collaborators).

(** X11. On a query whose characters are all below U+0100, the strings
    of this embedding, [search] does not see the letter case: the
    lower-cased query has the same tokens and gets the same result.
    ([str.lower] keeps the length of such a string, which it does not
    for every character beyond.) *)
Theorem search_case_insensitive (self : CommandSearcher) (query : string)
    (commands : list Command) :
  _tokenize ho (PyStr.lower query) = _tokenize ho query
  ∧ search ho collab self (PyStr.lower query) commands
    = search ho collab self query commands.
Proof.
  assert (Htok : _tokenize ho (PyStr.lower query) = _tokenize ho query).
  { by rewrite !tokenize_raw, raw_tokens_lower. }
  split; [done|]. unfold search, query_words_of. rewrite Htok.
  unfold PyStr.strip. rewrite lower_strip_by by apply isspace_lower_char.
  destruct (decide (PyStr.strip_by PyStr.isspace query = ""%string)) as [Hq|Hq].
  - rewrite decide_True; [done|]. by apply lower_empty.
  - rewrite decide_False; [done|]. by rewrite lower_empty.
Qed.

End CaseInsensitive.

Example tokenize_upper :
  _tokenize elements_order "SSH Key" = _tokenize elements_order "ssh key".
Proof. vm_compute. reflexivity. Qed.

(** ** The shape of a token *)

Lemma mem_rev_app c a b :
  PyStr.mem c (String.rev_app a b) = PyStr.mem c a || PyStr.mem c b.
Proof.
  revert b. induction a as [|d a IH]; intros b; simpl; [done|].
  rewrite IH. simpl. destruct (Ascii.eqb c d); simpl; [|done].
  by rewrite orb_true_r.
Qed.

Lemma mem_rev c s : PyStr.mem c (String.rev s) = PyStr.mem c s.
Proof. unfold String.rev. rewrite mem_rev_app. simpl. apply orb_false_r. Qed.

Lemma mem_lstrip_by p c s :
  PyStr.mem c (PyStr.lstrip_by p s) = true → PyStr.mem c s = true.
Proof.
  induction s as [|d s IH]; simpl; [done|].
  destruct (p d); [|done]. intros ->%IH. by destruct (Ascii.eqb c d).
Qed.

Lemma mem_strip_by p c s :
  PyStr.mem c (PyStr.strip_by p s) = true → PyStr.mem c s = true.
Proof.
  unfold PyStr.strip_by, PyStr.rstrip_by. rewrite mem_rev.
  intros H%mem_lstrip_by. rewrite mem_rev in H. by eapply mem_lstrip_by.
Qed.

Lemma mem_lower c s :
  PyStr.mem c (PyStr.lower s) = true →
  ∃ d, c = PyStr.lower_char d ∧ PyStr.mem d s = true.
Proof.
  induction s as [|d s IH]; simpl; [done|].
  destruct (Ascii.eqb c (PyStr.lower_char d)) eqn:Hc.
  - intros _. exists d. apply Ascii.eqb_eq in Hc. by rewrite Ascii.eqb_refl.
  - intros (d' & -> & Hd')%IH. exists d'. split; [done|].
    by destruct (Ascii.eqb d' d).
Qed.

Lemma split_go_no_space cur s :
  no_space cur → Forall no_space (PyStr.split_go cur s).
Proof.
  revert cur. induction s as [|c s IH]; intros cur Hcur; simpl.
  - destruct cur; [constructor|]. repeat constructor.
    intros d. rewrite mem_rev. apply Hcur.
  - destruct (PyStr.isspace c) eqn:Hc.
    + destruct cur; [by apply IH|]. constructor; [|by apply IH].
      intros d. rewrite mem_rev. apply Hcur.
    + apply IH. intros d. simpl.
      destruct (Ascii.eqb d c) eqn:Hd; [|apply Hcur].
      by apply Ascii.eqb_eq in Hd as ->.
Qed.

Lemma raw_tokens_shape w text :
  w ∈ raw_tokens text →
  (2 < String.length w)%nat ∧ PyStr.lower w = w ∧ no_space w.
Proof.
  unfold raw_tokens. intros (x & -> & Hx)%list_elem_of_fmap.
  apply list_elem_of_filter in Hx as [Hlen Hx].
  split_and!; [by rewrite length_lower|apply lower_idem|].
  intros c (d & -> & Hd)%mem_lower. rewrite isspace_lower_char.
  apply mem_strip_by in Hd.
  pose proof (split_go_no_space ""%string text) as Hsplit.
  rewrite Forall_forall in Hsplit. by apply (Hsplit ltac:(done) x).
Qed.

(** X12. The tokens of a text are pairwise different, and each of them
    has more than two characters, is in lower case and holds no
    whitespace. *)
Theorem tokenize_tokens (ho : HashOrder) (text : string) :
  NoDup (_tokenize ho text)
  ∧ Forall (fun w => (2 < String.length w)%nat ∧ PyStr.lower w = w ∧ no_space w)
           (_tokenize ho text).
Proof.
  split.
  - rewrite tokenize_raw. apply NoDup_iter_str.
  - apply Forall_forall. intros w Hw%elem_of_tokenize.
    by eapply raw_tokens_shape.
Qed.

(** ** What [build_index] builds *)

Lemma enumerate_to_idx_snoc words w :
  enumerate_to_idx (words ++ [w]) = <[w := length words]> (enumerate_to_idx words).
Proof.
  unfold enumerate_to_idx. rewrite imap_app, foldl_app. simpl.
  by rewrite Nat.add_0_r.
Qed.

Lemma enumerate_to_idx_lookup words w i :
  NoDup words →
  enumerate_to_idx words !! w = Some i ↔ words !! i = Some w.
Proof.
  induction words as [|x words IH] using rev_ind; intros Hnd.
  - unfold enumerate_to_idx. simpl. by rewrite lookup_empty.
  - apply NoDup_app in Hnd as (Hnd & Hx & _).
    rewrite enumerate_to_idx_snoc.
    destruct (decide (x = w)) as [->|Hne].
    + rewrite lookup_insert_eq. split.
      * intros [= <-]. rewrite lookup_app_r by done. by rewrite Nat.sub_diag.
      * intros [Hi|[Hlen Hi]]%lookup_app_Some.
        -- exfalso. apply (Hx w); [by eapply list_elem_of_lookup_2|].
           by apply list_elem_of_singleton.
        -- destruct (i - length words)%nat eqn:Hd; [|done]. f_equal. lia.
    + rewrite lookup_insert_ne by done. rewrite IH by done. split.
      * intros Hi. by apply lookup_app_l_Some.
      * intros [Hi|[Hlen Hi]]%lookup_app_Some; [done|].
        destruct (i - length words)%nat; [|done]. simpl in Hi. congruence.
Qed.

Lemma index_add_fold_dom idx wi words w :
  w ∈ dom (foldl (index_add idx) wi words) ↔ w ∈ dom wi ∨ w ∈ words.
Proof.
  revert wi. induction words as [|x words IH]; intros wi; simpl.
  - split; [by left|]. intros [|H]; [done|]. by apply elem_of_nil in H.
  - rewrite IH. unfold index_add. rewrite dom_insert, elem_of_union,
      elem_of_singleton, elem_of_cons. tauto.
Qed.

Section Built.

Context (ho : HashOrder).

Lemma dom_index_commands commands w :
  w ∈ dom (index_commands ho commands).1
  ↔ ∃ cmd, cmd ∈ commands ∧ w ∈ keyword_set ho cmd.
Proof.
  induction commands as [|cmd commands IH] using rev_ind.
  - unfold index_commands. simpl. rewrite dom_empty. split; [set_solver|].
    intros (c & Hc & _). by apply elem_of_nil in Hc.
  - rewrite index_commands_snoc. simpl. rewrite index_add_fold_dom, IH.
    unfold keyword_set at 2. rewrite <- (elem_of_list_to_set (C:=gset string)).
    fold (keyword_set ho cmd). split.
    + intros [(c & Hc & Hw)|Hw].
      * exists c. split; [apply elem_of_app; by left|done].
      * exists cmd. split; [apply elem_of_app; right; by apply list_elem_of_singleton|done].
    + intros (c & [Hc|Hc%list_elem_of_singleton]%elem_of_app & Hw).
      * left. eauto.
      * right. by subst.
Qed.

Lemma keyword_set_vocabulary commands cmd :
  cmd ∈ commands → keyword_set ho cmd ⊆ vocabulary ho commands.
Proof.
  intros Hcmd w Hw%elem_of_keyword_set. apply elem_of_vocabulary. eauto.
Qed.

(** X13. After [build_index] the inverted index and the keyword sets
    say the same: a position is in the entry of a word exactly when the
    keyword set at that position holds the word.  There is one keyword
    set per record, the words with an entry are the vocabulary, and
    every keyword is in the vocabulary. *)
Theorem build_index_consistent (rnd : Randn) (commands : list Command)
    (self0 : CommandSearcher) :
  let self := build_index ho rnd commands self0 in
  length (command_keywords self) = length commands
  ∧ (∀ w idx,
       idx ∈ default ∅ (word_index self !! w)
       ↔ ∃ kw, command_keywords self !! idx = Some kw ∧ w ∈ kw)
  ∧ dom (word_index self) = vocabulary ho commands
  ∧ (∀ idx kw, command_keywords self !! idx = Some kw →
       kw ⊆ vocabulary ho commands).
Proof.
  intros self. split_and!.
  - simpl. by rewrite command_keywords_index, length_map.
  - intros w idx. subst self. simpl word_index.
    rewrite word_index_index. split.
    + intros (cmd & Hcmd & Hw). exists (keyword_set ho cmd).
      by rewrite command_keywords_built, Hcmd.
    + intros (kw & Hkw & Hw). rewrite command_keywords_built in Hkw.
      destruct (commands !! idx) as [cmd|]; [|done].
      injection Hkw as <-. eauto.
  - apply set_eq. intros w. subst self. simpl word_index.
    rewrite dom_index_commands, elem_of_vocabulary.
    split; intros (cmd & Hcmd & Hw); exists cmd; (split; [done|]).
    + by apply elem_of_keyword_set in Hw.
    + by apply elem_of_keyword_set.
  - intros idx kw Hkw. subst self. rewrite command_keywords_built in Hkw.
    destruct (commands !! idx) as [cmd|] eqn:Hcmd; [|done].
    injection Hkw as <-. apply keyword_set_vocabulary.
    by eapply list_elem_of_lookup_2.
Qed.

Lemma word_to_idx_built rnd commands self0 w i :
  word_to_idx (build_index ho rnd commands self0) !! w = Some i
  ↔ all_words (build_index ho rnd commands self0) !! i = Some w.
Proof. simpl. apply enumerate_to_idx_lookup, NoDup_iter_str. Qed.

(** X14. After [build_index] the word list has no repetition and
    [word_to_idx] is its inverse: a word has index [i] exactly when it
    is the word at position [i], so every index is below the size of the
    vocabulary, which is the number of rows of the model. *)
Theorem word_to_idx_round_trip (rnd : Randn) (commands : list Command)
    (self0 : CommandSearcher) :
  let self := build_index ho rnd commands self0 in
  NoDup (all_words self)
  ∧ length (all_words self) = size (vocabulary ho commands)
  ∧ (∀ w i, word_to_idx self !! w = Some i ↔ all_words self !! i = Some w)
  ∧ (∀ w i, word_to_idx self !! w = Some i →
       (i < size (vocabulary ho commands))%nat)
  ∧ (n_rows <$> lm self) = Some (size (vocabulary ho commands)).
Proof.
  intros self. split_and!.
  - apply NoDup_iter_str.
  - apply length_iter_str.
  - intros w i. apply word_to_idx_built.
  - intros w i Hi%word_to_idx_built. apply lookup_lt_Some in Hi.
    subst self. simpl in Hi. by rewrite length_iter_str in Hi.
  - simpl. by rewrite length_iter_str.
Qed.

(** X15. [_get_word_indices] drops the words that are not in the
    vocabulary and maps the others, in order, to their positions in the
    word list. *)
Theorem get_word_indices_spec (rnd : Randn) (commands : list Command)
    (self0 : CommandSearcher) (words : list string) :
  let self := build_index ho rnd commands self0 in
  Forall2 (fun w i => all_words self !! i = Some w)
          (filter (fun w => w ∈ vocabulary ho commands) words)
          (_get_word_indices self words).
Proof.
  intros self. unfold _get_word_indices.
  assert (Hrt : ∀ w i, word_to_idx self !! w = Some i
                       ↔ all_words self !! i = Some w)
    by (intros; apply word_to_idx_built).
  assert (Hdom : dom (word_to_idx self) = vocabulary ho commands)
    by apply dom_word_to_idx_build_index.
  clearbody self.
  induction words as [|w words IH]; simpl; [constructor|].
  rewrite filter_cons.
  destruct (word_to_idx self !! w) as [i|] eqn:Hi.
  - rewrite decide_True.
    + constructor; [by apply Hrt|done].
    + rewrite <- Hdom. apply elem_of_dom. by eexists.
  - rewrite decide_False; [done|].
    rewrite <- Hdom. by apply not_elem_of_dom.
Qed.

End Built.

Example get_word_indices_ex :
  _get_word_indices default_searcher ["ssh"; "quack"; "key"]%string = [3; 2]%nat.
Proof. vm_compute. reflexivity. Qed.

(** ** Corrected tokens *)

Section Corrected.

Context (ho : HashOrder) (collab : Collaborators).

Lemma correct_spelling_closed rnd commands self0 word w' :
  _correct_spelling collab (build_index ho rnd commands self0) word = Ok w' →
  w' = word ∨ w' ∈ vocabulary ho commands.
Proof.
  set (self := build_index ho rnd commands self0).
  assert (Hdom : dom (word_to_idx self) = vocabulary ho commands)
    by apply dom_word_to_idx_build_index.
  assert (Hall : ∀ w, w ∈ all_words self → w ∈ vocabulary ho commands).
  { intros w Hw. rewrite <- (all_words_build_index ho rnd commands self0).
    by apply elem_of_list_to_set. }
  clearbody self. unfold _correct_spelling, fuzzy_match. rewrite Hdom.
  destruct (decide (word ∈ vocabulary ho commands)); [intros [= <-]; by left|].
  assert (Hfuzzy :
    match extractOne (fuzz_WRatio collab) word (all_words self) with
    | Some (best_match, score, _) =>
        Ok (if Qlt_le_dec 80 score then best_match else word)
    | None => Raise TypeError
    end = Ok w' → w' = word ∨ w' ∈ vocabulary ho commands).
  { destruct (all_words self) as [|a ws] eqn:Hws; [done|].
    destruct (extractOne_some (fuzz_WRatio collab) word (a :: ws))
      as (best & score & k & -> & Hin & _); [done|].
    intros [= <-]. destruct (Qlt_le_dec 80 score); [|by left].
    right. apply Hall. first [done | by rewrite Hws]. }
  destruct (SpellChecker_correction collab (spell_checker self) word) as [c|];
    [|exact Hfuzzy].
  destruct (decide (c ≠ ""%string ∧ c ∈ vocabulary ho commands)) as [[_ Hc]|];
    [|exact Hfuzzy].
  intros [= <-]. by right.
Qed.

(** X16. After [build_index], a token that [_correct_spelling] returns
    is the token it was given or a word of the vocabulary; a vocabulary
    word is returned unchanged, and correcting a corrected token changes
    nothing. *)
Theorem correct_spelling_idempotent (rnd : Randn) (commands : list Command)
    (self0 : CommandSearcher) (word w' : string) :
  let self := build_index ho rnd commands self0 in
  _correct_spelling collab self word = Ok w' →
  (w' = word ∨ w' ∈ vocabulary ho commands)
  ∧ (word ∈ vocabulary ho commands → w' = word)
  ∧ _correct_spelling collab self w' = Ok w'.
Proof.
  intros self Hc. subst self.
  pose proof (correct_spelling_closed rnd commands self0 word w' Hc) as Hcl.
  split_and!; [done| |].
  - intros Hw. rewrite correct_spelling_known in Hc; [congruence|].
    by rewrite dom_word_to_idx_build_index.
  - destruct Hcl as [->|Hv]; [done|].
    apply correct_spelling_known. by rewrite dom_word_to_idx_build_index.
Qed.

End Corrected.

Lemma correct_spelling_idempotent_witness :
  _correct_spelling typo_collaborators
    (build_index elements_order zero_randn default_commands
       (CommandSearcher_init typo_collaborators)) "network"
  = Ok "network"%string.
Proof.
  assert (Hc : _correct_spelling typo_collaborators
                 (build_index elements_order zero_randn default_commands
                    (CommandSearcher_init typo_collaborators)) "netwrk"
               = Ok "network"%string) by (vm_compute; reflexivity).
  apply (correct_spelling_idempotent elements_order typo_collaborators zero_randn
           default_commands (CommandSearcher_init typo_collaborators)
           "netwrk" "network" Hc).
Defined.

(** ** The forward pass *)

(** X18. The forward pass raises nothing but [ZeroDivisionError], and
    that exactly when ids are given to a model whose embedding table has
    no row; otherwise it returns three features. *)
Theorem forward_outcome (m : MicroLanguageModel) (ids : list nat) :
  match forward m ids with
  | Ok features => length features = 3%nat ∧ (ids = [] ∨ n_rows m ≠ 0%nat)
  | Raise e => e = ZeroDivisionError ∧ n_rows m = 0%nat ∧ ids ≠ []
  end.
Proof.
  destruct (forward m ids) as [features|e] eqn:Hf.
  - destruct (forward_features m ids features Hf) as [Hlen _].
    split; [done|].
    destruct ids as [|idx ids]; [by left|]. right. intros Hz.
    unfold forward in Hf. rewrite mapM_row_of, Hz in Hf. done.
  - destruct ids as [|idx ids]; [done|].
    unfold forward in Hf. rewrite mapM_row_of in Hf.
    destruct (n_rows m); [|done].
    cbn [mbind result_bind] in Hf. by injection Hf as <-.
Qed.

(** ** The projection similarity *)

Lemma get_word_indices_filter self words :
  _get_word_indices self
    (filter (fun w => w ∈ dom (word_to_idx self)) words)
  = _get_word_indices self words.
Proof.
  unfold _get_word_indices.
  induction words as [|w words IH]; [done|].
  rewrite filter_cons.
  destruct (decide (w ∈ dom (word_to_idx self))) as [Hin|Hnin].
  - apply elem_of_dom in Hin as [i Hi]. simpl. rewrite Hi. f_equal. exact IH.
  - apply not_elem_of_dom in Hnin. simpl. rewrite Hnin. exact IH.
Qed.

(** X19. [_analyze_with_lm] raises [AttributeError] on a searcher that
    has no model yet, and query words outside the vocabulary do not
    influence it: with or without them it returns the same value or
    raises the same exception. *)
Theorem analyze_with_lm_known_words (ho : HashOrder) (self : CommandSearcher)
    (query_words : list string) (cmd_words : gset string) :
  (lm self = None →
   _analyze_with_lm ho self query_words cmd_words = Raise AttributeError)
  ∧ _analyze_with_lm ho self
      (filter (fun w => w ∈ dom (word_to_idx self)) query_words) cmd_words
    = _analyze_with_lm ho self query_words cmd_words.
Proof.
  split.
  - intros Hlm. unfold _analyze_with_lm. by rewrite Hlm.
  - unfold _analyze_with_lm. by rewrite get_word_indices_filter.
Qed.

Lemma analyze_with_lm_known_words_witness :
  _analyze_with_lm elements_order (CommandSearcher_init silent_collaborators)
    ["ssh"%string] ∅
  = Raise AttributeError.
Proof.
  apply (proj1 (analyze_with_lm_known_words elements_order
                  (CommandSearcher_init silent_collaborators) ["ssh"%string] ∅)).
  reflexivity.
Defined.

(** ** Density *)

(** X20. The density of a candidate lies between 0 and 1; it is 0 for a
    record without keywords, positive exactly when the record shares a
    word with the query, and 1 exactly when the record has keywords and
    all of them are query words. *)
Theorem density_spec (query_words : list string) (cmd_words : gset string) :
  0 <= density query_words cmd_words <= 1
  ∧ (cmd_words = ∅ → density query_words cmd_words = 0)
  ∧ (0 < density query_words cmd_words
     ↔ ∃ w, w ∈ query_words ∧ w ∈ cmd_words)
  ∧ (density query_words cmd_words = 1
     ↔ cmd_words ≠ ∅ ∧ ∀ w, w ∈ cmd_words → w ∈ query_words).
Proof.
  split; [apply density_bounds|]. split; [|split].
  - intros ->. unfold density. by rewrite decide_True.
  - unfold density. destruct (decide (cmd_words = ∅)) as [->|Hne].
    + split; [lra|]. intros (w & _ & Hw). set_solver.
    + assert (Hc : (0 < size cmd_words)%nat).
      { assert (size cmd_words ≠ 0%nat); [|lia].
        intros Hz. apply Hne. by apply leibniz_equiv, size_empty_iff. }
      apply lt_INR in Hc. simpl in Hc.
      pose proof (pos_INR (size (matched_words query_words cmd_words))) as Hm.
      split.
      * intros Hpos.
        assert (Hsz : size (matched_words query_words cmd_words) ≠ 0%nat).
        { intros Hz. rewrite Hz in Hpos. simpl in Hpos.
          unfold Rdiv in Hpos. rewrite Rmult_0_l in Hpos. lra. }
        apply size_non_empty_iff in Hsz.
        apply set_choose in Hsz as [w Hw]. exists w.
        unfold matched_words in Hw. set_solver.
      * intros (w & Hq & Hw).
        assert (Hsz : (0 < size (matched_words query_words cmd_words))%nat).
        { assert (size (matched_words query_words cmd_words) ≠ 0%nat); [|lia].
          intros Hz%size_empty_iff. unfold matched_words in Hz. set_solver. }
        apply lt_INR in Hsz. simpl in Hsz. apply Rdiv_lt_0_compat; lra.
  - unfold density. destruct (decide (cmd_words = ∅)) as [->|Hne].
    + split; [lra|]. by intros [? _].
    + assert (Hc : (0 < size cmd_words)%nat).
      { assert (size cmd_words ≠ 0%nat); [|lia].
        intros Hz. apply Hne. by apply leibniz_equiv, size_empty_iff. }
      pose proof (size_matched_le_cmd query_words cmd_words) as Hle.
      assert (Hsub : matched_words query_words cmd_words ⊆ cmd_words)
        by (unfold matched_words; set_solver).
      pose proof (lt_INR _ _ Hc) as HcR. simpl in HcR.
      split.
      * intros H1. split; [done|].
        assert (Heq : INR (size (matched_words query_words cmd_words))
                      = INR (size cmd_words)).
        { apply (Rmult_eq_reg_r (/ INR (size cmd_words))).
          - fold (Rdiv (INR (size (matched_words query_words cmd_words)))
                       (INR (size cmd_words))).
            rewrite H1. field. lra.
          - apply Rinv_neq_0_compat. lra. }
        apply INR_eq in Heq.
        assert (Hset : matched_words query_words cmd_words = cmd_words).
        { apply leibniz_equiv, set_subseteq_size_equiv; [done|lia]. }
        intros w Hw. rewrite <- Hset in Hw. unfold matched_words in Hw. set_solver.
      * intros [_ Hall].
        assert (Hset : matched_words query_words cmd_words = cmd_words).
        { unfold matched_words. apply set_eq. intros w.
          rewrite elem_of_intersection, elem_of_list_to_set. naive_solver. }
        rewrite Hset. field. lra.
Qed.

Lemma density_spec_witness : density ["ssh"%string] ∅ = 0.
Proof. by apply (density_spec ["ssh"%string] ∅). Defined.

(** ** Which candidates are returned *)

Lemma elem_of_heappush_2 heap x y : y = x ∨ y ∈ heap → y ∈ heappush heap x.
Proof. rewrite (heappush_perm heap x), elem_of_cons. tauto. Qed.

Lemma StronglySorted_lookup_lt {A} (R : relation A) l i j x y :
  StronglySorted R l → l !! i = Some x → l !! j = Some y → (i < j)%nat → R x y.
Proof.
  intros Hl. revert i j. induction Hl as [|a l Hl IH Ha]; intros i j Hi Hj Hij.
  - done.
  - destruct i as [|i], j as [|j]; try lia; simpl in *.
    + injection Hi as ->. rewrite Forall_forall in Ha. apply Ha.
      by eapply list_elem_of_lookup_2.
    + eapply IH; [done|done|lia].
Qed.

Lemma NoDup_map_take {A B} (f : A → B) (n : nat) (l : list A) :
  NoDup (map f l) → NoDup (map f (take n l)).
Proof.
  rewrite <- (take_drop n l) at 1. rewrite map_app.
  by intros (? & _)%NoDup_app.
Qed.

Section TopK.

Context (ho : HashOrder) (collab : Collaborators).

Lemma score_candidates_complete self qw heap cands heap' :
  score_candidates ho self qw heap cands = Ok heap' →
  (∀ y, y ∈ heap → y ∈ heap')
  ∧ (∀ idx sc, idx ∈ cands → candidate_score ho self qw idx = Ok sc →
       0.3 < sc → (- sc, idx) ∈ heap').
Proof.
  revert heap. induction cands as [|idx cands IH]; intros heap; simpl.
  - intros [= <-]. split; [done|]. intros ?? H. by apply elem_of_nil in H.
  - unfold score_candidate at 1.
    destruct (candidate_score ho self qw idx) as [s|] eqn:Hs;
      cbn [mbind result_bind]; [|done].
    intros Hrest. destruct (IH _ Hrest) as [Hkeep Hnew]. split.
    + intros y Hy. apply Hkeep.
      destruct (Rlt_dec 0.3 s); [|done]. apply elem_of_heappush_2. by right.
    + intros i sc [->|Hi]%elem_of_cons Hsc Hlt; [|by eapply Hnew].
      rewrite Hs in Hsc. injection Hsc as ->. apply Hkeep.
      destruct (Rlt_dec 0.3 sc); [|done]. apply elem_of_heappush_2. by left.
Qed.

Lemma score_candidates_NoDup self qw heap cands heap' :
  score_candidates ho self qw heap cands = Ok heap' →
  NoDup (map snd heap ++ cands) → NoDup (map snd heap').
Proof.
  revert heap. induction cands as [|idx cands IH]; intros heap; simpl.
  - intros [= <-]. by rewrite app_nil_r.
  - unfold score_candidate at 1.
    destruct (candidate_score ho self qw idx) as [s|] eqn:Hs;
      cbn [mbind result_bind]; [|done].
    intros Hrest Hnd. apply (IH _ Hrest).
    destruct (Rlt_dec 0.3 s).
    + rewrite (heappush_perm heap (- s, idx)). simpl.
      by rewrite Permutation_middle.
    + rewrite <- Permutation_middle in Hnd. by apply NoDup_cons in Hnd as [_ ?].
Qed.

Lemma mapM_returned commands (l : list item) res :
  mapM (fun '(score, idx) => cmd ← getitem commands idx; Ok (cmd, - score)) l
  = Ok res →
  Forall2 (returned commands) l res.
Proof.
  intros Hres%mapM_Ok_Forall2. eapply Forall2_impl; [exact Hres|].
  intros [s idx] [cmd sc]. unfold getitem. simpl.
  destruct (commands !! idx) as [c|] eqn:Hc; cbn [mbind result_bind]; [|done].
  intros [= -> <-]. by split.
Qed.

(** The steps of a search that has candidates. *)
Lemma search_steps self query commands res qw idx :
  search ho collab self query commands = Ok res →
  query_words_of ho collab self query = Ok qw →
  idx ∈ candidate_indices_of self qw →
  ∃ heap,
    score_candidates ho self qw [] (iter_idx ho (candidate_indices_of self qw))
    = Ok heap
    ∧ Forall2 (returned commands) (take 3 (sorted_by_key heap)) res.
Proof.
  intros Hs Hqw Hidx. unfold search in Hs. rewrite Hqw in Hs.
  destruct (decide (PyStr.strip query = ""%string)) as [Hq|Hq].
  - exfalso. apply strip_empty_all_space, raw_tokens_all_space in Hq.
    unfold query_words_of in Hqw. rewrite tokenize_raw, Hq in Hqw.
    change (list_to_set []) with (∅ : gset string) in Hqw.
    rewrite iter_str_empty in Hqw. simpl in Hqw. injection Hqw as <-.
    unfold candidate_indices_of in Hidx. simpl in Hidx. set_solver.
  - cbn [mbind result_bind] in Hs. destruct qw as [|w qw].
    { unfold candidate_indices_of in Hidx. simpl in Hidx. set_solver. }
    destruct (score_candidates ho self (w :: qw) [] _) as [heap|] eqn:Hheap;
      cbn [mbind result_bind] in Hs; [|done].
    exists heap. split; [done|]. by apply mapM_returned.
Qed.

(** X21. [search] returns the best candidates: a candidate whose score
    exceeds the threshold is in the result with that score, or the
    result has three entries and none of them has a smaller score. *)
Theorem search_top_k (self : CommandSearcher) (query : string)
    (commands : list Command) (res : list (Command * R)) (qw : list string)
    (idx : nat) (sc : R) :
  search ho collab self query commands = Ok res →
  query_words_of ho collab self query = Ok qw →
  idx ∈ candidate_indices_of self qw →
  candidate_score ho self qw idx = Ok sc →
  0.3 < sc →
  (∃ cmd, commands !! idx = Some cmd ∧ (cmd, sc) ∈ res)
  ∨ (length res = 3%nat ∧ Forall (fun r => sc <= r.2) res).
Proof.
  intros Hs Hqw Hidx Hsc Hlt.
  destruct (search_steps _ _ _ _ _ _ Hs Hqw Hidx) as (heap & Hheap & Hres).
  destruct (score_candidates_complete _ _ _ _ _ Hheap) as [_ Hnew].
  assert (Hmem : (- sc, idx) ∈ sorted_by_key heap).
  { rewrite (sorted_by_key_perm heap). apply Hnew; [|done|done].
    by apply elem_of_iter_idx. }
  apply list_elem_of_lookup in Hmem as [j Hj].
  destruct (decide (j < 3)%nat) as [Hj3|Hj3].
  - left.
    assert (Ht : take 3 (sorted_by_key heap) !! j = Some (- sc, idx))
      by by rewrite lookup_take_lt.
    destruct (Forall2_lookup_l _ _ _ _ _ Hres Ht) as ([cmd sc'] & Hr & Hcmd & Hsc').
    simpl in Hcmd, Hsc'. rewrite Ropp_involutive in Hsc'. subst sc'.
    exists cmd. split; [done|]. by eapply list_elem_of_lookup_2.
  - right.
    assert (Hlen : length (take 3 (sorted_by_key heap)) = 3%nat).
    { apply lookup_lt_Some in Hj. rewrite length_take. apply Nat.min_l.
      unfold item in *. lia. }
    split; [by rewrite <- (Forall2_length _ _ _ Hres)|].
    apply Forall_forall. intros r [i Hi]%list_elem_of_lookup.
    destruct (Forall2_lookup_r _ _ _ _ _ Hres Hi) as (x & Hx & _ & Hr).
    assert (Hi3 : (i < 3)%nat).
    { apply lookup_lt_Some in Hx. rewrite length_take in Hx. lia. }
    rewrite lookup_take_lt in Hx by done.
    assert (Hle : key_le x (- sc, idx)).
    { eapply (StronglySorted_lookup_lt key_le);
        [apply sorted_by_key_sorted|exact Hx|exact Hj|lia]. }
    unfold key_le in Hle. simpl in Hle. rewrite Hr. lra.
Qed.

(** X22. No table position is returned twice: the records of a result
    stand at pairwise different positions of the catalog, so they are
    pairwise different when the rows of the catalog are. *)
Theorem search_distinct_positions (self : CommandSearcher) (query : string)
    (commands : list Command) (res : list (Command * R)) :
  search ho collab self query commands = Ok res →
  (∃ positions,
     NoDup positions
     ∧ Forall2 (fun i r => commands !! i = Some r.1) positions res)
  ∧ (NoDup commands → NoDup (map fst res)).
Proof.
  intros Hs.
  assert (Hpos : ∃ positions,
            NoDup positions
            ∧ Forall2 (fun i r => commands !! i = Some r.1) positions res).
  { destruct (search_inv ho collab self query commands res Hs)
      as [->|(qw & heap & _ & _ & Hheap & Hres)].
    { exists []. split; constructor. }
    exists (map snd (take 3 (sorted_by_key heap))). split.
    - apply NoDup_map_take. rewrite (sorted_by_key_perm heap).
      apply (score_candidates_NoDup _ _ _ _ _ Hheap). simpl.
      rewrite (iter_idx_perm ho). apply NoDup_elements.
    - apply Forall2_fmap_l. eapply Forall2_impl; [exact Hres|].
      by intros x r [? _]. }
  split; [done|]. intros Hnd.
  destruct Hpos as (positions & Hpnd & Hall).
  apply NoDup_alt. intros i j c Hi Hj.
  rewrite list_lookup_fmap in Hi, Hj.
  destruct (res !! i) as [ri|] eqn:Hri; [|done].
  destruct (res !! j) as [rj|] eqn:Hrj; [|done].
  simpl in Hi, Hj. injection Hi as Hi. injection Hj as Hj.
  destruct (Forall2_lookup_r _ _ _ _ _ Hall Hri) as (pi & Hpi & Hci).
  destruct (Forall2_lookup_r _ _ _ _ _ Hall Hrj) as (pj & Hpj & Hcj).
  rewrite Hi in Hci. rewrite Hj in Hcj.
  assert (pi = pj) as -> by exact (NoDup_lookup _ _ _ _ Hnd Hci Hcj).
  exact (NoDup_lookup _ _ _ _ Hpnd Hpi Hpj).
Qed.

End TopK.

Section AllCandidates.

Context (ho : HashOrder) (collab : Collaborators).

(** X23. On an index built from a catalog with a non-empty vocabulary,
    [search] on that catalog returns normally, and the threshold drops
    no candidate: the result has as many entries as there are
    candidates, up to three, and it is empty exactly when no record has
    a corrected query word among its keywords. *)
Theorem search_returns_candidates (rnd : Randn) (commands : list Command)
    (self0 : CommandSearcher) (query : string) :
  vocabulary ho commands ≠ ∅ →
  let self := build_index ho rnd commands self0 in
  ∃ qw res,
    query_words_of ho collab self query = Ok qw
    ∧ search ho collab self query commands = Ok res
    ∧ length res = (3 `min` size (candidate_indices_of self qw))%nat
    ∧ (res = [] ↔ ∀ cmd w, cmd ∈ commands → w ∈ qw → w ∉ keyword_set ho cmd).
Proof.
  intros Hv self.
  assert (Hsteps : ∃ qw res,
    query_words_of ho collab self query = Ok qw
    ∧ search ho collab self query commands = Ok res
    ∧ length res = (3 `min` size (candidate_indices_of self qw))%nat).
  { destruct (decide (PyStr.strip query = ""%string)) as [Hq|Hq].
    - exists [], []. split_and!.
      + apply strip_empty_all_space, raw_tokens_all_space in Hq.
        unfold query_words_of. rewrite tokenize_raw, Hq.
        change (list_to_set []) with (∅ : gset string).
        by rewrite iter_str_empty.
      + unfold search. by rewrite decide_True.
      + done.
    - by apply search_built_returns. }
  destruct Hsteps as (qw & res & Hqw & Hs & Hlen).
  exists qw, res. split_and!; try done.
  assert (Hnil : res = [] ↔ candidate_indices_of self qw = ∅).
  { split.
    - intros ->. cbn [length] in Hlen.
      apply leibniz_equiv, size_empty_iff. lia.
    - intros Hc. rewrite Hc, size_empty in Hlen. by destruct res. }
  rewrite Hnil. split.
  - intros Hc cmd w [i Hi]%list_elem_of_lookup Hw Hk.
    assert (Hin : i ∈ candidate_indices_of self qw).
    { apply elem_of_candidates_built. eauto. }
    rewrite Hc in Hin. set_solver.
  - intros Hnone. apply set_eq. intros i. split; [|set_solver].
    intros (cmd & w & Hcmd & Hw & Hk)%elem_of_candidates_built.
    exfalso. eapply Hnone; [|done|done]. by eapply list_elem_of_lookup_2.
Qed.

End AllCandidates.

Lemma vocabulary_default_nonempty : vocabulary elements_order default_commands ≠ ∅.
Proof.
  intros Hv. pose proof (ssh_in_vocabulary elements_order) as Hssh.
  rewrite Hv in Hssh. by apply not_elem_of_empty in Hssh.
Qed.

Lemma search_returns_candidates_witness :
  ∃ qw res,
    query_words_of elements_order silent_collaborators default_searcher "ssh key"
    = Ok qw
    ∧ search elements_order silent_collaborators default_searcher "ssh key"
             default_commands = Ok res
    ∧ length res
      = (3 `min` size (candidate_indices_of default_searcher qw))%nat.
Proof.
  destruct (search_returns_candidates elements_order silent_collaborators zero_randn
              default_commands (CommandSearcher_init silent_collaborators) "ssh key"
              vocabulary_default_nonempty) as (qw & res & Hqw & Hs & Hlen & _).
  exists qw, res. auto.
Defined.

Lemma NoDup_default_commands : NoDup default_commands.
Proof.
  repeat (apply NoDup_cons; split; [not_in_list|]). apply NoDup_nil_2.
Qed.

Lemma search_distinct_positions_witness :
  ∃ res,
    search elements_order silent_collaborators default_searcher "ssh key"
           default_commands = Ok res
    ∧ res ≠ [] ∧ NoDup (map fst res).
Proof.
  destruct (search_ssh_key elements_order silent_collaborators zero_randn
              (CommandSearcher_init silent_collaborators)) as (r & rs & Hs).
  exists (r :: rs). split; [exact Hs|]. split; [discriminate|].
  apply (search_distinct_positions elements_order silent_collaborators
           default_searcher "ssh key" default_commands (r :: rs) Hs).
  apply NoDup_default_commands.
Defined.

Lemma search_top_k_witness :
  ∃ res sc,
    search elements_order silent_collaborators default_searcher "ssh key"
           default_commands = Ok res
    ∧ candidate_score elements_order default_searcher ["key"; "ssh"]%string 0
      = Ok sc
    ∧ ((∃ cmd, default_commands !! 0%nat = Some cmd ∧ (cmd, sc) ∈ res)
       ∨ (length res = 3%nat ∧ Forall (fun r => sc <= r.2) res)).
Proof.
  destruct (search_ssh_key elements_order silent_collaborators zero_randn
              (CommandSearcher_init silent_collaborators)) as (r & rs & Hs).
  assert (Hc : 0%nat ∈ candidate_indices_of default_searcher ["key"; "ssh"]%string).
  { apply elem_of_elements. rewrite candidates_ssh_key.
    apply list_elem_of_further, list_elem_of_here. }
  destruct (candidate_score_built elements_order zero_randn default_commands
              (CommandSearcher_init silent_collaborators) _ _ Hc)
    as (cmd & sc & _ & Hsc & Hlt).
  exists (r :: rs), sc. split; [exact Hs|]. split; [exact Hsc|].
  exact (search_top_k elements_order silent_collaborators default_searcher
           "ssh key" default_commands (r :: rs) ["key"; "ssh"]%string 0 sc
           Hs query_words_ssh_key Hc Hsc Hlt).
Defined.

(** ** Searching with another catalog than the indexed one *)

Section Stale.

Context (ho : HashOrder) (collab : Collaborators).

(** X24. [search] reads the catalog it is handed only to look up the
    records at the positions it found: with rows appended to the
    catalog the result is the same, and with the empty catalog a search
    that had a result raises [IndexError]. *)
Theorem search_stale_catalog (self : CommandSearcher) (query : string)
    (commands : list Command) (res : list (Command * R)) :
  search ho collab self query commands = Ok res →
  (∀ extra, search ho collab self query (commands ++ extra) = Ok res)
  ∧ (res ≠ [] → search ho collab self query [] = Raise IndexError).
Proof.
  unfold search.
  destruct (decide (PyStr.strip query = ""%string)).
  { intros [= <-]. by split. }
  destruct (query_words_of ho collab self query) as [qw|];
    cbn [mbind result_bind]; [|done].
  destruct qw as [|w qw]; [intros [= <-]; by split|].
  destruct (score_candidates ho self (w :: qw) [] _) as [heap|];
    cbn [mbind result_bind]; [|done].
  generalize (take 3 (sorted_by_key heap)). intros top Hres. split.
  - intros extra. apply mapM_Ok_Forall2. apply mapM_Ok_Forall2 in Hres.
    eapply Forall2_impl; [exact Hres|].
    intros [s idx] r. unfold getitem.
    destruct (commands !! idx) as [c|] eqn:Hc; cbn [mbind result_bind]; [|done].
    intros [= <-]. by rewrite (lookup_app_l_Some _ _ _ _ Hc).
  - intros Hne. destruct top as [|[s idx] top].
    + simpl in Hres. by injection Hres as <-.
    + reflexivity.
Qed.

End Stale.

Lemma search_stale_catalog_witness :
  search elements_order silent_collaborators default_searcher "ssh key" []
  = Raise IndexError.
Proof.
  destruct (search_ssh_key elements_order silent_collaborators zero_randn
              (CommandSearcher_init silent_collaborators)) as (r & rs & Hs).
  apply (search_stale_catalog elements_order silent_collaborators default_searcher
           "ssh key" default_commands (r :: rs) Hs).
  discriminate.
Defined.
